(** * The staged reply pipeline of AI_logic/respond.py

    A shallow embedding of [respond_to_girl] and of the functions it is
    built from ([commander_chain], [invoke_chain], the module start-up code),
    followed by the properties the specification states about them.

    The Python code is effectful: it reads and writes the record store,
    calls three language-model chains, sleeps between retries, prints, and
    sends notifications.  All of that is threaded through an explicit
    [World] (the store and a log of the effects performed, newest first) by
    a small state-and-exception monad [M]. *)

From Stdlib Require Import ZArith Ascii.
From stdpp Require Import base option list strings gmap.

Open Scope string_scope.
Open Scope list_scope.
Set Warnings "-register-all".

(** ** Python values and exceptions *)

(** What [json.loads] returns.  Numbers are kept integral: no part of the
    pipeline computes with them. *)
Inductive json : Type :=
  | JNull
  | JBool (b : bool)
  | JNum (n : Z)
  | JStr (s : string)
  | JList (l : list json)
  | JDict (d : list (string * json)).

(** The exceptions the pipeline can meet.  [RetryError] is what tenacity
    raises when [stop_after_attempt] fires; it carries the last failure.
    [RequestException] stands for what [requests.get] raises (a hook without
    scheme, an unreachable host), [PushbulletError] for what the push client
    raises, at construction or on a note; [ImportError], [OSError] and
    [ValidationError] are start-up failures. *)
Inductive exn : Type :=
  | KeyError (key : string)
  | NameError (name : string)
  | TypeError
  | AttributeError
  | JSONDecodeError
  | ChainError (msg : string)
  | RetryError (last : exn)
  | RequestException (msg : string)
  | PushbulletError (msg : string)
  | ImportError (msg : string)
  | OSError (msg : string)
  | ValidationError (msg : string).

Definition Result (A : Type) : Type := exn + A.

(** Truthiness of a [str]: only the empty string is falsy. *)
Definition truthy (s : string) : bool :=
  match s with
  | EmptyString => false
  | String _ _ => true
  end.

(** [sep.join(parts)]. *)
Fixpoint join (sep : string) (parts : list string) : string :=
  match parts with
  | [] => ""
  | [p] => p
  | p :: rest => p +:+ sep +:+ join sep rest
  end.

(** [d[key]] for a parsed JSON value [d]. *)
Fixpoint dict_get (key : string) (d : list (string * json)) : option json :=
  match d with
  | [] => None
  | (k, v) :: d' => if String.eqb k key then Some v else dict_get key d'
  end.

Definition getitem (v : json) (key : string) : Result json :=
  match v with
  | JDict d =>
      match dict_get key d with
      | Some x => inr x
      | None => inl (KeyError key)
      end
  | _ => inl TypeError
  end.

(** ** Output classes, models, prompts and chains *)

Record AnalyzerOutput : Type := mkAnalyzerOutput {
  a_summary : string;
  a_future_step : string;
  a_contact : string
}.

(** The two Commander classes have the same fields and differ in the tag
    vocabulary their [tags] description names. *)
Inductive CommanderOutput : Type :=
  | CommanderStep1Output (reasoning : string) (tags : list string)
  | CommanderStep2Output (reasoning : string) (tags : list string).

Definition c_tags (o : CommanderOutput) : list string :=
  match o with
  | CommanderStep1Output _ t => t
  | CommanderStep2Output _ t => t
  end.

Inductive pydantic_class : Type :=
  | cls_AnalyzerOutput
  | cls_CommanderStep1Output
  | cls_CommanderStep2Output.

(** The tags listed in the [tags] field description of a class. *)
Definition tag_vocabulary (c : pydantic_class) : list string :=
  match c with
  | cls_AnalyzerOutput => []
  | cls_CommanderStep1Output => ["Bond"; "Attractive guy image"; "Storytelling"]
  | cls_CommanderStep2Output =>
      ["Suggesting meeting"; "Comfort"; "Providing meeting details"; "Ask for contact"]
  end.

Inductive ChatOpenAI : Type :=
  | Analyzer
  | Commander
  | Writer.

Definition model_name (m : ChatOpenAI) : string :=
  match m with
  | Analyzer => "gpt-4-1106-preview"
  | Commander => "gpt-4-1106-preview"
  | Writer => "gpt-4"
  end.

Inductive prompt : Type :=
  | analyzer_prompt
  | commander_step1_prompt
  | commander_step2_prompt
  | writer_prompt.

Inductive Chain : Type :=
  | create_structured_output_runnable (c : pydantic_class) (m : ChatOpenAI) (p : prompt)
  | str_pipeline (p : prompt) (m : ChatOpenAI).

Definition analyzer_chain : Chain :=
  create_structured_output_runnable cls_AnalyzerOutput Analyzer analyzer_prompt.

Definition writer_chain : Chain := str_pipeline writer_prompt Writer.

Definition commander_chain (future_step : string) : Chain :=
  if String.eqb future_step "step1"
  then create_structured_output_runnable cls_CommanderStep1Output Commander commander_step1_prompt
  else create_structured_output_runnable cls_CommanderStep2Output Commander commander_step2_prompt.

Definition output_class (c : Chain) : option pydantic_class :=
  match c with
  | create_structured_output_runnable cls _ _ => Some cls
  | str_pipeline _ _ => None
  end.

(** ** The world: record store and effect log *)

Record ConversationState : Type := mkState {
  cs_summary : string;
  cs_suspended : bool
}.

Inductive Pushbullet : Type :=
  | PushbulletClient (api_key : string).

Inductive printed : Type :=
  | AnalyzerSays (o : AnalyzerOutput)
  | ModuleSays (module_name : option string) (output : json)
  | ErrorEncountered (e : exn).

Inductive event : Type :=
  | GetRecord (name_age : string)
  | Invoke (c : Chain) (args : list (string * string))
  | Print (p : printed)
  | Sleep (seconds : nat)
  | RequestsGet (url : string) (params : list (string * string))
  | PushNote (pb : Pushbullet) (title body : string)
  | QueryRule (tag : string)
  | UpsertRecord (name_age : string) (new_summary : option string) (not_to_rise : bool).

Record World : Type := mkWorld {
  store : gmap string ConversationState;
  log : list event
}.

Definition emit (e : event) (w : World) : World :=
  {| store := store w; log := e :: log w |}.

(** Number of chain invocations performed so far; the model oracles are
    indexed by it, so two invocations with equal arguments may differ. *)
Fixpoint llm_calls (l : list event) : nat :=
  match l with
  | [] => 0
  | Invoke _ _ :: l' => S (llm_calls l')
  | _ :: l' => llm_calls l'
  end.

Fixpoint rule_queries (l : list event) : nat :=
  match l with
  | [] => 0
  | QueryRule _ :: l' => S (rule_queries l')
  | _ :: l' => rule_queries l'
  end.

(** ** The state-and-exception monad *)

Definition M (A : Type) : Type := World -> Result A * World.

Definition ret {A} (a : A) : M A := fun w => (inr a, w).

Definition raise {A} (e : exn) : M A := fun w => (inl e, w).

Definition bind {A B} (m : M A) (k : A -> M B) : M B :=
  fun w =>
    match m w with
    | (inr a, w') => k a w'
    | (inl e, w') => (inl e, w')
    end.

(** [try: m except Exception as e: h e]. *)
Definition try_except {A} (m : M A) (h : exn -> M A) : M A :=
  fun w =>
    match m w with
    | (inr a, w') => (inr a, w')
    | (inl e, w') => h e w'
    end.

Definition lift {A} (r : Result A) : M A := fun w => (r, w).

Definition tell (e : event) : M unit := fun w => (inr tt, emit e w).

(** An external call that is made, logged as [e], and then either returns
    or raises. *)
Definition call (e : event) (outcome : option exn) : M unit :=
  fun w =>
    (match outcome with
     | None => inr tt
     | Some err => inl err
     end,
     emit e w).

Declare Scope py_scope.
Delimit Scope py_scope with py.
Notation "x <- m ;; k" := (bind m (fun x => k))
  (at level 100, m at next level, right associativity) : py_scope.
Notation "m ;;; k" := (bind m (fun _ => k))
  (at level 100, right associativity) : py_scope.
Open Scope py_scope.

Fixpoint mapM {A B} (f : A -> M B) (l : list A) : M (list B) :=
  match l with
  | [] => ret []
  | a :: l' => b <- f a ;; bs <- mapM f l' ;; ret (b :: bs)
  end.

(** ** The external collaborators *)

(** What [chain.invoke] can hand back: an instance of the chain's pydantic
    class, or the text of the string pipeline. *)
Inductive chain_output : Type :=
  | OutAnalyzer (o : AnalyzerOutput)
  | OutCommander (o : CommanderOutput)
  | OutStr (s : string).

(** The language models, the rule data base, the two notification services
    and the two Python built-ins the pipeline uses.  The models and the rule
    data base are indexed by the number of earlier calls: they need not
    answer twice alike.  [requests_get] and [push_note] give what the call
    raises, [None] when it returns. *)
Record Externals : Type := mkExternals {
  analyzer_llm : nat -> list (string * string) -> Result AnalyzerOutput;
  commander_llm : pydantic_class -> nat -> list (string * string) -> Result (string * list string);
  writer_llm : nat -> list (string * string) -> Result string;
  rules_db : nat -> string -> string;
  json_loads : string -> Result json;
  str : json -> string;
  requests_get : string -> list (string * string) -> option exn;
  push_note : Pushbullet -> string -> string -> option exn
}.

Definition map_result {A B} (f : A -> B) (r : Result A) : Result B :=
  match r with
  | inl e => inl e
  | inr a => inr (f a)
  end.

(** The answer of chain [c] to its [n]-th invocation.  A structured-output
    runnable returns an instance of its own class. *)
Definition run_chain (X : Externals) (c : Chain) (n : nat) (args : list (string * string))
  : Result chain_output :=
  match c with
  | create_structured_output_runnable cls_AnalyzerOutput _ _ =>
      map_result OutAnalyzer (analyzer_llm X n args)
  | create_structured_output_runnable cls_CommanderStep1Output _ _ =>
      map_result (fun rt => OutCommander (CommanderStep1Output (fst rt) (snd rt)))
                 (commander_llm X cls_CommanderStep1Output n args)
  | create_structured_output_runnable cls_CommanderStep2Output _ _ =>
      map_result (fun rt => OutCommander (CommanderStep2Output (fst rt) (snd rt)))
                 (commander_llm X cls_CommanderStep2Output n args)
  | str_pipeline _ _ => map_result OutStr (writer_llm X n args)
  end.

(** [chain.invoke(args)]. *)
Definition invoke (X : Externals) (c : Chain) (args : list (string * string)) : M chain_output :=
  fun w => (run_chain X c (llm_calls (log w)) args, emit (Invoke c args) w).

(** Attribute access on the object a chain returned. *)
Definition as_analyzer (o : chain_output) : Result AnalyzerOutput :=
  match o with
  | OutAnalyzer a => inr a
  | _ => inl AttributeError
  end.

Definition as_commander (o : chain_output) : Result CommanderOutput :=
  match o with
  | OutCommander c => inr c
  | _ => inl AttributeError
  end.

(** [json.loads(output)]: a [str] is parsed, anything else is a [TypeError]. *)
Definition loads (X : Externals) (o : chain_output) : Result json :=
  match o with
  | OutStr s => json_loads X s
  | _ => inl TypeError
  end.

(** [query_rule(tag)] of AI_logic/rule_base/rules_db_conn.py. *)
Definition query_rule (X : Externals) (tag : string) : M string :=
  fun w => (inr (rules_db X (rule_queries (log w)) tag), emit (QueryRule tag) w).

(** The summary text the store holds for a contact, blank if it has no
    record. *)
Definition stored_summary (w : World) (name_age : string) : string :=
  match store w !! name_age with
  | Some r => cs_summary r
  | None => ""
  end.

(** Modelled from the spec: [get_record] of AI_logic/airtable.py, which is
    not among the sources: the stored summary text, blank if the contact has
    no record. *)
Definition get_record (name_age : string) : M string :=
  fun w => (inr (stored_summary w name_age), emit (GetRecord name_age) w).

(** Modelled from the spec: [upsert_record(key, summary_text=None,
    not_to_rise=False)] of AI_logic/airtable.py: writes the summary text when
    one is given and marks the contact suspended when [not_to_rise] is set. *)
Definition upsert_record (name_age : string) (new_summary : option string)
    (not_to_rise : bool) : M unit :=
  fun w =>
    let old := default (mkState "" false) (store w !! name_age) in
    (inr tt,
     {| store := <[name_age :=
                    {| cs_summary := default (cs_summary old) new_summary;
                       cs_suspended := cs_suspended old || not_to_rise |}]> (store w);
        log := UpsertRecord name_age new_summary not_to_rise :: log w |}).

(** ** Module start-up (lines 1-89) *)

Record Globals : Type := mkGlobals {
  language : string;
  city : string;
  notifications_hook : option string;
  pushbullet_key : option string;
  (** the module-level name [pushbullet]; [None] when it was never bound *)
  pushbullet : option Pushbullet
}.

(** What start-up depends on besides the environment: the imports of lines
    1-13 with [load_dotenv] (they run the top-level code of the imported
    modules), the four prompt files, the construction of the push client (an
    HTTPS request), of the three chat models (they need their own
    credentials) and of the two fixed chains.  Each gives what it raises,
    [None] when it returns. *)
Record Host : Type := mkHost {
  import_modules : gmap string string -> option exn;
  read_prompt : prompt -> option exn;
  Pushbullet_init : string -> option exn;
  ChatOpenAI_init : gmap string string -> ChatOpenAI -> option exn;
  build_chain : Chain -> option exn
}.

Definition check (outcome : option exn) : Result unit :=
  match outcome with
  | None => inr tt
  | Some e => inl e
  end.

Definition and_then {A B} (r : Result A) (k : A -> Result B) : Result B :=
  match r with
  | inl e => inl e
  | inr a => k a
  end.

(** [os.environ[name]]. *)
Definition environ_get (environ : gmap string string) (name : string) : Result string :=
  match environ !! name with
  | Some v => inr v
  | None => inl (KeyError name)
  end.

(** The module body in the order of its statements.  [environ] is
    [os.environ] as lines 17-39 see it, [load_dotenv] done.
    [os.environ[...]] raises [KeyError] on a missing variable, [os.getenv]
    gives [None]; the name [pushbullet] is bound, and the client built, only
    under [if pushbullet_key:]. *)
Definition load_module (H : Host) (environ : gmap string string) : Result Globals :=
  and_then (check (import_modules H environ)) (fun _ =>
  and_then (environ_get environ "LANGUAGE") (fun lang =>
  and_then (environ_get environ "CITY") (fun cty =>
  let hook := environ !! "NOTIFICATIONS_HOOK" in
  and_then (check (read_prompt H analyzer_prompt)) (fun _ =>
  and_then (check (read_prompt H commander_step1_prompt)) (fun _ =>
  and_then (check (read_prompt H commander_step2_prompt)) (fun _ =>
  and_then (check (read_prompt H writer_prompt)) (fun _ =>
  let key := environ !! "PUSHBULLET_API_KEY" in
  and_then (match key with
            | Some k =>
                if truthy k
                then and_then (check (Pushbullet_init H k))
                              (fun _ => inr (Some (PushbulletClient k)))
                else inr None
            | None => inr None
            end) (fun pb =>
  and_then (check (ChatOpenAI_init H environ Analyzer)) (fun _ =>
  and_then (check (ChatOpenAI_init H environ Commander)) (fun _ =>
  and_then (check (ChatOpenAI_init H environ Writer)) (fun _ =>
  and_then (check (build_chain H analyzer_chain)) (fun _ =>
  and_then (check (build_chain H writer_chain)) (fun _ =>
  inr {| language := lang;
         city := cty;
         notifications_hook := hook;
         pushbullet_key := key;
         pushbullet := pb |}))))))))))))).

(** ** The retry decorator and [invoke_chain] (lines 99-110) *)

(** tenacity's loop: run the body; when it raises, stop with [RetryError]
    if no attempt is left, else sleep [wait] and try again. *)
Fixpoint retrying {A} (retries_left wait : nat) (body : M A) : M A :=
  try_except body (fun e =>
    match retries_left with
    | 0 => raise (RetryError e)
    | S n => tell (Sleep wait) ;;; retrying n wait body
    end).

(** [@retry(stop=stop_after_attempt(n), wait=wait_fixed(w))]. *)
Definition retry {A} (stop_after_attempt wait_fixed : nat) (body : M A) : M A :=
  retrying (Nat.pred stop_after_attempt) wait_fixed body.

(** The undecorated body of [invoke_chain]. *)
Definition invoke_chain_body (X : Externals) (chain : Chain) (args : list (string * string))
    (module_name : option string) : M json :=
  try_except
    (output <- invoke X chain args ;;
     output <- lift (loads X output) ;;
     tell (Print (ModuleSays module_name output)) ;;;
     ret output)
    (fun e => tell (Print (ErrorEncountered e)) ;;; raise e).

Definition invoke_chain (X : Externals) (chain : Chain) (args : list (string * string))
    (module_name : option string) : M json :=
  retry 3 90 (invoke_chain_body X chain args module_name).

(** ** The orchestrator (lines 113-147) *)

Definition nl : string := String "010"%char "".

(** The separator of line 131: newline, three hashes, newline, dash, space. *)
Definition rules_separator : string := nl +:+ "###" +:+ nl +:+ "- ".

(** ['Attractive guy image' in tags or 'Storytelling' in tags]. *)
Definition refresh_needed (tags : list string) : bool :=
  bool_decide ("Attractive guy image" ∈ tags) || bool_decide ("Storytelling" ∈ tags).

Definition respond_to_girl (X : Externals) (G : Globals) (name_age messages : string) : M json :=
  previous_summary <- get_record name_age ;;
  analyzer_output <- invoke X analyzer_chain
                       [("summary", previous_summary); ("messages", messages)] ;;
  analyzer_output <- lift (as_analyzer analyzer_output) ;;
  tell (Print (AnalyzerSays analyzer_output)) ;;;
  let future_step := a_future_step analyzer_output in
  let summary := a_summary analyzer_output in
  let contact := a_contact analyzer_output in
  if truthy contact then
    match notifications_hook G with
    | Some hook =>
        if truthy hook
        then
          let params := [("name_age", name_age); ("contact", contact)] in
          call (RequestsGet hook params) (requests_get X hook params)
        else ret tt
    | None => ret tt
    end ;;;
    pb <- match pushbullet G with
          | Some pb => ret pb
          | None => raise (NameError "pushbullet")
          end ;;
    let title := "I planned date with " +:+ name_age in
    call (PushNote pb title contact) (push_note X pb title contact) ;;;
    upsert_record name_age None true ;;;
    ret JNull
  else
    commander_output <- invoke X (commander_chain future_step)
                          [("summary", summary); ("messages", messages)] ;;
    commander_output <- lift (as_commander commander_output) ;;
    let tags := c_tags commander_output in
    resolved <- mapM (query_rule X) tags ;;
    let rules := join rules_separator resolved in
    writer_output <- invoke_chain X writer_chain
                       [("rules", rules); ("messages", messages);
                        ("language", language G); ("city", city G)]
                       (Some "Writer") ;;
    messages' <- lift (getitem writer_output "message") ;;
    summary' <- (if refresh_needed tags then
                   analyzer2_output <- invoke X analyzer_chain
                                         [("summary", summary);
                                          ("messages", "Conversator: " +:+ str X messages')] ;;
                   analyzer2_output <- lift (as_analyzer analyzer2_output) ;;
                   tell (Print (AnalyzerSays analyzer_output)) ;;;
                   ret (a_summary analyzer2_output)
                 else ret summary) ;;
    upsert_record name_age (Some summary') false ;;;
    ret messages'.

(** * Vocabulary for the statements *)

(** [extend evs w]: the world [w] after the effects [evs] (newest first),
    none of which touched the store. *)
Definition extend (evs : list event) (w : World) : World :=
  {| store := store w; log := evs ++ log w |}.

Definition analyzer_args (summary messages : string) : list (string * string) :=
  [("summary", summary); ("messages", messages)].

Definition writer_args (G : Globals) (rules messages : string) : list (string * string) :=
  [("rules", rules); ("messages", messages); ("language", language G); ("city", city G)].

(** The Analyzer's answer to the first invocation of a cycle started in [w]. *)
Definition first_analysis (X : Externals) (name_age messages : string) (w : World)
  : Result AnalyzerOutput :=
  analyzer_llm X (llm_calls (log w)) (analyzer_args (stored_summary w name_age) messages).

(** The world once the first analysis [a] has been printed. *)
Definition analyzed (name_age messages : string) (a : AnalyzerOutput) (w : World) : World :=
  extend [Print (AnalyzerSays a);
          Invoke analyzer_chain (analyzer_args (stored_summary w name_age) messages);
          GetRecord name_age] w.

(** The Commander's answer in a cycle started in [w] whose analysis was [a]. *)
Definition tactic_selection (X : Externals) (messages : string) (a : AnalyzerOutput) (w : World)
  : Result chain_output :=
  run_chain X (commander_chain (a_future_step a)) (S (llm_calls (log w)))
            (analyzer_args (a_summary a) messages).

(** The guidance texts of [tags], the first looked up as query number [k]. *)
Fixpoint resolved_from (X : Externals) (k : nat) (tags : list string) : list string :=
  match tags with
  | [] => []
  | t :: ts => rules_db X k t :: resolved_from X (S k) ts
  end.

Definition guidance (X : Externals) (w : World) (tags : list string) : string :=
  join rules_separator (resolved_from X (rule_queries (log w)) tags).

(** The world in which the Writer is first invoked. *)
Definition before_writer (name_age messages : string) (a : AnalyzerOutput)
    (tags : list string) (w : World) : World :=
  extend (rev (map QueryRule tags))
    (emit (Invoke (commander_chain (a_future_step a)) (analyzer_args (a_summary a) messages))
       (analyzed name_age messages a w)).

(** One attempt of [invoke_chain]: the chain's answer, parsed. *)
Definition attempt (X : Externals) (c : Chain) (args : list (string * string)) (n : nat)
  : Result json :=
  match run_chain X c n args with
  | inl e => inl e
  | inr o => loads X o
  end.

Definition is_upsert (e : event) : bool :=
  match e with
  | UpsertRecord _ _ _ => true
  | _ => false
  end.

Definition is_sleep (e : event) : bool :=
  match e with
  | Sleep _ => true
  | _ => false
  end.

(** The outcome of the retry loop as a function of the answers alone: the
    result and the effects performed, newest first. [k] is the index of the
    first attempt. *)
Fixpoint retry_run (X : Externals) (c : Chain) (args : list (string * string))
    (m : option string) (wait retries_left k : nat) : Result json * list event :=
  match attempt X c args k with
  | inr v => (inr v, [Print (ModuleSays m v); Invoke c args])
  | inl e =>
      match retries_left with
      | 0 => (inl (RetryError e), [Print (ErrorEncountered e); Invoke c args])
      | S r =>
          let res := retry_run X c args m wait r (S k) in
          (fst res, snd res ++ [Sleep wait; Print (ErrorEncountered e); Invoke c args])
      end
  end.

(** Every effect of the loop is an invocation of the chain on the same
    arguments, a diagnostic print, or a sleep of the fixed delay. *)
Definition retry_effect (c : Chain) (args : list (string * string)) (wait : nat)
    (e : event) : Prop :=
  e = Invoke c args \/ e = Sleep wait \/ exists p, e = Print p.

(** The webhook call of the contact-exit path, made only for a truthy
    [notifications_hook]. *)
Definition hook_effects (G : Globals) (name_age contact : string) : list event :=
  match notifications_hook G with
  | Some hook =>
      if truthy hook
      then [RequestsGet hook [("name_age", name_age); ("contact", contact)]]
      else []
  | None => []
  end.

(** What the webhook call of the contact-exit path raises; [None] when it
    returns or is not made. *)
Definition hook_outcome (X : Externals) (G : Globals) (name_age contact : string)
  : option exn :=
  match notifications_hook G with
  | Some hook =>
      if truthy hook
      then requests_get X hook [("name_age", name_age); ("contact", contact)]
      else None
  | None => None
  end.

(** The run of the contact-exit path (lines 121-126) after the analysis [a]:
    the webhook call may raise; the name [pushbullet] may be unbound; the
    push note may raise; only then is the contact marked and [None]
    returned. *)
Definition contact_exit_run (X : Externals) (G : Globals) (name_age messages : string)
    (a : AnalyzerOutput) (w : World) : Result json * World :=
  let title := "I planned date with " +:+ name_age in
  let hooked := extend (hook_effects G name_age (a_contact a))
                       (analyzed name_age messages a w) in
  match hook_outcome X G name_age (a_contact a) with
  | Some e => (inl e, hooked)
  | None =>
      match pushbullet G with
      | None => (inl (NameError "pushbullet"), hooked)
      | Some pb =>
          let pushed := emit (PushNote pb title (a_contact a)) hooked in
          match push_note X pb title (a_contact a) with
          | Some e => (inl e, pushed)
          | None => (inr JNull, snd (upsert_record name_age None true pushed))
          end
      end
  end.

(** The Commander's answer as the object the orchestrator reads [tags] from. *)
Definition selected_tactics (X : Externals) (messages : string) (a : AnalyzerOutput)
    (w : World) : Result CommanderOutput :=
  match tactic_selection X messages a w with
  | inl e => inl e
  | inr o => as_commander o
  end.

(** Lines 132-147: everything from the Writer call on. *)
Definition reply_stage (X : Externals) (G : Globals) (name_age messages : string)
    (a : AnalyzerOutput) (tags : list string) (rules : string) : M json :=
  writer_output <- invoke_chain X writer_chain (writer_args G rules messages) (Some "Writer") ;;
  messages' <- lift (getitem writer_output "message") ;;
  summary' <- (if refresh_needed tags then
                 analyzer2_output <- invoke X analyzer_chain
                                       [("summary", a_summary a);
                                        ("messages", "Conversator: " +:+ str X messages')] ;;
                 analyzer2_output <- lift (as_analyzer analyzer2_output) ;;
                 tell (Print (AnalyzerSays a)) ;;;
                 ret (a_summary analyzer2_output)
               else ret (a_summary a)) ;;
  upsert_record name_age (Some summary') false ;;;
  ret messages'.

(** The world after [upsert_record name_age new_summary not_to_rise]. *)
Definition upserted (name_age : string) (new_summary : option string) (not_to_rise : bool)
    (w : World) : World :=
  snd (upsert_record name_age new_summary not_to_rise w).

(** The arguments of the second Analyzer invocation (line 142). *)
Definition refresh_args (X : Externals) (a : AnalyzerOutput) (msgs : json)
  : list (string * string) :=
  analyzer_args (a_summary a) ("Conversator: " +:+ str X msgs).

(** The effects of the reply stage before it persists: invocations of the
    Writer and of the Analyzer, sleeps and prints. *)
Definition reply_effect (e : event) : Prop :=
  (exists args, e = Invoke writer_chain args) \/
  (exists args, e = Invoke analyzer_chain args) \/
  (exists s, e = Sleep s) \/
  (exists p, e = Print p).

(** Number of Analyzer invocations in a log. *)
Fixpoint analyzer_calls (l : list event) : nat :=
  match l with
  | [] => 0
  | Invoke (create_structured_output_runnable cls_AnalyzerOutput _ _) _ :: l' =>
      S (analyzer_calls l')
  | _ :: l' => analyzer_calls l'
  end.

(** * Concrete scenarios *)

(** The cycles below instantiate the statements: a configured process, a
    process started without the push credential, and scripted answers of
    the three models. *)

Definition dq : string := String "034"%char "".

(** The text a well-behaved Writer returns, and its parse. *)
Definition writer_text : string :=
  "{" +:+ dq +:+ "reasoning" +:+ dq +:+ ": " +:+ dq +:+ "open lightly" +:+ dq +:+ ", "
      +:+ dq +:+ "message" +:+ dq +:+ ": [" +:+ dq +:+ "Hey, how was your day?" +:+ dq +:+ "]}".

Definition writer_json : json :=
  JDict [("reasoning", JStr "open lightly");
         ("message", JList [JStr "Hey, how was your day?"])].

(** [json.loads] on the one text the scripted Writer produces. *)
Definition demo_loads (s : string) : Result json :=
  if String.eqb s writer_text then inr writer_json else inl JSONDecodeError.

(** A rendering of [str(messages)], enough for a list of strings. *)
Definition demo_str (v : json) : string :=
  match v with
  | JList l =>
      "[" +:+ join ", " (map (fun x => match x with
                                       | JStr s => "'" +:+ s +:+ "'"
                                       | _ => "?"
                                       end) l) +:+ "]"
  | JStr s => s
  | _ => "?"
  end.

Definition demo_rules (tag : string) : string :=
  if String.eqb tag "Bond" then "Ask about her day."
  else if String.eqb tag "Storytelling" then "Tell a short story."
  else "Be yourself.".

Definition scripted (analyzer : nat -> Result AnalyzerOutput)
    (commander : nat -> Result (string * list string))
    (writer : nat -> Result string) : Externals :=
  {| analyzer_llm := fun n _ => analyzer n;
     commander_llm := fun _ n _ => commander n;
     writer_llm := fun n _ => writer n;
     rules_db := fun _ tag => demo_rules tag;
     json_loads := demo_loads;
     str := demo_str;
     requests_get := fun _ _ => None;
     push_note := fun _ _ _ => None |}.

Definition step1_analysis : AnalyzerOutput :=
  {| a_summary := "We are on step 1."; a_future_step := "step1"; a_contact := "" |}.

Definition refreshed_analysis : AnalyzerOutput :=
  {| a_summary := "We are on step 1. Fun stories (1/1)."; a_future_step := "step1";
     a_contact := "" |}.

Definition contact_analysis : AnalyzerOutput :=
  {| a_summary := "We are on step 2."; a_future_step := "step2";
     a_contact := "Instagram jane_doe" |}.

(** Everything answers at once; the Commander picks [tags]. *)
Definition smooth (tags : list string) : Externals :=
  scripted (fun n => inr (if Nat.eqb n 0 then step1_analysis else refreshed_analysis))
           (fun _ => inr ("build rapport", tags))
           (fun _ => inr writer_text).

(** The Writer fails on its first two attempts (calls 2 and 3). *)
Definition writer_fails_twice (tags : list string) : Externals :=
  scripted (fun n => inr (if Nat.eqb n 0 then step1_analysis else refreshed_analysis))
           (fun _ => inr ("tell a story", tags))
           (fun n => if Nat.ltb n 4 then inl (ChainError "rate limit") else inr writer_text).

(** The Writer never answers. *)
Definition writer_down : Externals :=
  scripted (fun _ => inr step1_analysis)
           (fun _ => inr ("build rapport", ["Bond"]))
           (fun _ => inl (ChainError "timeout")).

(** The Analyzer fails once and would answer the next time. *)
Definition analyzer_hiccup : Externals :=
  scripted (fun n => if Nat.eqb n 0 then inl (ChainError "timeout") else inr step1_analysis)
           (fun _ => inr ("build rapport", ["Bond"]))
           (fun _ => inr writer_text).

(** The Commander fails once and would answer the next time. *)
Definition commander_hiccup : Externals :=
  scripted (fun _ => inr step1_analysis)
           (fun n => if Nat.eqb n 1 then inl (ChainError "timeout")
                     else inr ("build rapport", ["Bond"]))
           (fun _ => inr writer_text).

(** She has just sent her Instagram handle. *)
Definition contact_given : Externals :=
  scripted (fun _ => inr contact_analysis)
           (fun _ => inr ("ask for contact", ["Ask for contact"]))
           (fun _ => inr writer_text).

(** A host on which everything start-up needs is in place. *)
Definition ready_host : Host :=
  {| import_modules := fun _ => None;
     read_prompt := fun _ => None;
     Pushbullet_init := fun _ => None;
     ChatOpenAI_init := fun _ _ => None;
     build_chain := fun _ => None |}.

Definition environ_full : gmap string string :=
  <["LANGUAGE" := "english"]> (<["CITY" := "Warsaw"]>
    (<["NOTIFICATIONS_HOOK" := "https://hooks.example/date"]>
      (<["PUSHBULLET_API_KEY" := "o.key"]> ∅))).

(** The optional push credential is not set. *)
Definition environ_no_push : gmap string string :=
  <["LANGUAGE" := "english"]> (<["CITY" := "Warsaw"]> ∅).

(** Only the webhook is configured; the push credential is not set. *)
Definition environ_hook_only : gmap string string :=
  <["LANGUAGE" := "english"]> (<["CITY" := "Warsaw"]>
    (<["NOTIFICATIONS_HOOK" := "https://hooks.example/date"]> ∅)).

Definition globals_full : Globals :=
  {| language := "english"; city := "Warsaw";
     notifications_hook := Some "https://hooks.example/date";
     pushbullet_key := Some "o.key";
     pushbullet := Some (PushbulletClient "o.key") |}.

Definition globals_no_push : Globals :=
  {| language := "english"; city := "Warsaw";
     notifications_hook := None; pushbullet_key := None; pushbullet := None |}.

Definition globals_hook_only : Globals :=
  {| language := "english"; city := "Warsaw";
     notifications_hook := Some "https://hooks.example/date";
     pushbullet_key := None; pushbullet := None |}.

(** A store that already knows Jane, and an empty log. *)
Definition world0 : World :=
  {| store := <["Jane 27" := {| cs_summary := "We are on step 2."; cs_suspended := false |}]> ∅;
     log := [] |}.

Definition fresh_world : World := {| store := ∅; log := [] |}.

(** * Further vocabulary: store accesses, notifications, waiting time *)

Definition touches_store (e : event) : bool :=
  match e with
  | GetRecord _ => true
  | UpsertRecord _ _ _ => true
  | _ => false
  end.

Definition is_notification (e : event) : bool :=
  match e with
  | RequestsGet _ _ => true
  | PushNote _ _ _ => true
  | _ => false
  end.

Definition is_query (e : event) : bool :=
  match e with
  | QueryRule _ => true
  | _ => false
  end.

(** Total time slept in a log. *)
Fixpoint slept (l : list event) : nat :=
  match l with
  | [] => 0
  | Sleep s :: l' => s + slept l'
  | _ :: l' => slept l'
  end.

(** What is known of the effects of the retried Writer call. *)
Definition writer_effects (args : list (string * string)) (evs : list event) : Prop :=
  Forall (retry_effect writer_chain args 90) evs /\
  1 <= llm_calls evs <= 3 /\
  slept evs = 90 * (llm_calls evs - 1) /\
  Invoke writer_chain args ∈ evs.

(** Effects that neither touch the store nor notify anyone. *)
Definition quiet (e : event) : bool := negb (touches_store e || is_notification e).

(** The first two effects of every cycle, newest first. *)
Definition opening (name_age messages : string) (w : World) : list event :=
  [Invoke analyzer_chain (analyzer_args (stored_summary w name_age) messages);
   GetRecord name_age].

(** The push note call of the contact-exit path: made when the webhook
    call did not raise and the name [pushbullet] is bound. *)
Definition push_effects (X : Externals) (G : Globals) (name_age : string)
    (a : AnalyzerOutput) : list event :=
  match hook_outcome X G name_age (a_contact a) with
  | Some _ => []
  | None =>
      match pushbullet G with
      | Some pb => [PushNote pb ("I planned date with " +:+ name_age) (a_contact a)]
      | None => []
      end
  end.

(** The effects of the contact-exit path between the opening and the
    write, newest first. *)
Definition contact_effects (X : Externals) (G : Globals) (name_age : string)
    (a : AnalyzerOutput) : list event :=
  push_effects X G name_age a ++ hook_effects G name_age (a_contact a)
    ++ [Print (AnalyzerSays a)].

(** The shape of a run [rw] of a cycle started in [w]: the opening, then
    the effects [evs], then one write if and only if the cycle returns; the
    write sets the flag exactly when it carries no summary. *)
Definition cycle_shape (name_age messages : string) (w : World)
    (rw : Result json * World) (evs : list event) : Prop :=
  (exists e, rw = (inl e, extend (evs ++ opening name_age messages w) w)) \/
  (exists r s b,
     rw = (inr r, upserted name_age s b (extend (evs ++ opening name_age messages w) w)) /\
     (b = true <-> s = None)).

(** Different answers of the Commander, the Writer and the rule base, the
    same Analyzer as [contact_given]. *)
Definition contact_given_rest_down : Externals :=
  {| analyzer_llm := fun _ _ => inr contact_analysis;
     commander_llm := fun _ _ _ => inl (ChainError "down");
     writer_llm := fun _ _ => inl (ChainError "down");
     rules_db := fun _ _ => "";
     json_loads := fun _ => inl JSONDecodeError;
     str := fun _ => "";
     requests_get := fun _ _ => None;
     push_note := fun _ _ _ => None |}.

(** The push key is set to the empty string. *)
Definition environ_empty_key : gmap string string :=
  <["LANGUAGE" := "english"]> (<["CITY" := "Warsaw"]> (<["PUSHBULLET_API_KEY" := ""]> ∅)).

Definition globals_empty_key : Globals :=
  {| language := "english"; city := "Warsaw";
     notifications_hook := None; pushbullet_key := Some ""; pushbullet := None |}.



(** The refresh call of the Analyzer (call 3) fails. *)
Definition refresh_down : Externals :=
  scripted (fun n => if Nat.eqb n 0 then inr step1_analysis else inl (ChainError "timeout"))
           (fun _ => inr ("tell a story", ["Storytelling"]))
           (fun _ => inr writer_text).

(** The webhook call raises, as for a hook without scheme. *)
Definition webhook_down : Externals :=
  {| analyzer_llm := fun _ _ => inr contact_analysis;
     commander_llm := fun _ _ _ => inl (ChainError "down");
     writer_llm := fun _ _ => inl (ChainError "down");
     rules_db := fun _ _ => "";
     json_loads := fun _ => inl JSONDecodeError;
     str := fun _ => "";
     requests_get := fun _ _ => Some (RequestException "MissingSchema");
     push_note := fun _ _ _ => None |}.

(** The push client cannot be built: the service rejects the key. *)
Definition push_rejecting_host : Host :=
  {| import_modules := fun _ => None;
     read_prompt := fun _ => None;
     Pushbullet_init := fun _ => Some (PushbulletError "InvalidKeyError");
     ChatOpenAI_init := fun _ _ => None;
     build_chain := fun _ => None |}.

(** The Commander selects nothing. *)
Definition no_tags : Externals := smooth [].
(** * Properties *)

(** ** The monad's building blocks *)

Lemma extend_nil w : extend [] w = w.
Proof. by destruct w. Qed.

Lemma extend_extend evs evs' w : extend evs (extend evs' w) = extend (evs ++ evs') w.
Proof. unfold extend; simpl. by rewrite app_assoc. Qed.

Lemma log_extend evs w : log (extend evs w) = evs ++ log w.
Proof. reflexivity. Qed.

Lemma emit_extend e w : emit e w = extend [e] w.
Proof. reflexivity. Qed.

Lemma llm_calls_app l l' : llm_calls (l ++ l') = llm_calls l + llm_calls l'.
Proof.
  induction l as [|e l IH]; [done|].
  destruct e; simpl; rewrite IH; lia.
Qed.

Lemma rule_queries_app l l' : rule_queries (l ++ l') = rule_queries l + rule_queries l'.
Proof.
  induction l as [|e l IH]; [done|].
  destruct e; simpl; rewrite IH; lia.
Qed.

Lemma elem_of_query_rules e tags :
  e ∈ rev (map QueryRule tags) -> exists t, e = QueryRule t.
Proof. rewrite list_elem_of_In, <- in_rev, in_map_iff. intros (t & <- & _). eauto. Qed.

Lemma mapM_query_rule X tags w :
  mapM (query_rule X) tags w =
  (inr (resolved_from X (rule_queries (log w)) tags), extend (rev (map QueryRule tags)) w).
Proof.
  revert w. induction tags as [|t ts IH]; intros w.
  - simpl. by rewrite extend_nil.
  - simpl. unfold bind at 1. unfold query_rule at 1.
    unfold bind at 1. rewrite IH. simpl.
    unfold ret, extend, emit; simpl. by rewrite <- app_assoc.
Qed.

(** ** The retried call *)

Lemma invoke_chain_body_run X c args m w :
  invoke_chain_body X c args m w =
  match attempt X c args (llm_calls (log w)) with
  | inr v => (inr v, extend [Print (ModuleSays m v); Invoke c args] w)
  | inl e => (inl e, extend [Print (ErrorEncountered e); Invoke c args] w)
  end.
Proof.
  unfold invoke_chain_body, try_except, bind, invoke, attempt, lift, tell, ret, raise.
  destruct (run_chain X c (llm_calls (log w)) args) as [e|o]; [done|].
  simpl. by destruct (loads X o).
Qed.

Lemma retrying_run X c args m wait r w :
  retrying r wait (invoke_chain_body X c args m) w =
  (fst (retry_run X c args m wait r (llm_calls (log w))),
   extend (snd (retry_run X c args m wait r (llm_calls (log w)))) w).
Proof.
  revert w. induction r as [|r IH]; intros w; simpl;
    unfold try_except; rewrite invoke_chain_body_run;
    destruct (attempt X c args (llm_calls (log w))) as [e|v]; try done.
  unfold bind, tell. rewrite IH. simpl.
  f_equal. unfold extend, emit; simpl. by rewrite <- app_assoc.
Qed.

Lemma invoke_chain_run X c args m w :
  invoke_chain X c args m w =
  (fst (retry_run X c args m 90 2 (llm_calls (log w))),
   extend (snd (retry_run X c args m 90 2 (llm_calls (log w)))) w).
Proof. apply retrying_run. Qed.

Lemma retry_run_effects X c args m wait r k :
  Forall (retry_effect c args wait) (snd (retry_run X c args m wait r k)).
Proof.
  revert k. induction r as [|r IH]; intros k; simpl;
    destruct (attempt X c args k) as [e|v]; simpl;
    repeat (apply Forall_cons; split); try apply Forall_nil;
    unfold retry_effect; eauto.
  apply Forall_app; split; [apply IH|].
  repeat (apply Forall_cons; split); try apply Forall_nil; eauto.
Qed.

(** Between one and [retries_left + 1] attempts are made, and one sleep
    fewer than attempts. *)
Lemma retry_run_attempts X c args m wait r k :
  let evs := snd (retry_run X c args m wait r k) in
  1 <= llm_calls evs <= S r /\
  length (filter (fun e => is_sleep e = true) evs) = llm_calls evs - 1.
Proof.
  revert k. induction r as [|r IH]; intros k; simpl;
    destruct (attempt X c args k) as [e|v]; simpl; try lia.
  destruct (IH (S k)) as [[H1 H2] H3].
  rewrite llm_calls_app, filter_app, length_app, H3; simpl. lia.
Qed.

(** A result is the answer of the first attempt that did not fail. *)
Lemma retry_run_success X c args m wait r k v :
  fst (retry_run X c args m wait r k) = inr v ->
  exists n evs, n <= r /\ attempt X c args (k + n) = inr v /\
    (forall i, i < n -> exists e, attempt X c args (k + i) = inl e) /\
    snd (retry_run X c args m wait r k) = Print (ModuleSays m v) :: Invoke c args :: evs.
Proof.
  revert k. induction r as [|r IH]; intros k; simpl;
    destruct (attempt X c args k) as [e|v'] eqn:Ek; simpl; intros H; try done.
  - injection H as ->. exists 0, []. rewrite Nat.add_0_r. repeat split; [lia|done|lia].
  - destruct (IH _ H) as (n & evs & Hn & Ha & Hf & Hs).
    exists (S n), (evs ++ [Sleep wait; Print (ErrorEncountered e); Invoke c args]).
    repeat split; [lia| by rewrite Nat.add_succ_r | | by rewrite Hs].
    intros [|i] Hi; [rewrite Nat.add_0_r; eauto|].
    rewrite Nat.add_succ_r. apply Hf. lia.
  - injection H as ->. exists 0, []. rewrite Nat.add_0_r. repeat split; [lia|done|lia].
Qed.

(** A failure is tenacity's [RetryError] around the last of [retries_left + 1]
    failed attempts. *)
Lemma retry_run_failure X c args m wait r k e :
  fst (retry_run X c args m wait r k) = inl e ->
  exists last, e = RetryError last /\ attempt X c args (k + r) = inl last /\
    (forall i, i <= r -> exists e', attempt X c args (k + i) = inl e').
Proof.
  revert k. induction r as [|r IH]; intros k; simpl;
    destruct (attempt X c args k) as [e0|v'] eqn:Ek; simpl; intros H; try done.
  - injection H as <-. exists e0. rewrite Nat.add_0_r. repeat split; [done|].
    intros i Hi. assert (i = 0) as -> by lia. rewrite Nat.add_0_r. eauto.
  - destruct (IH _ H) as (last & -> & Ha & Hf).
    exists last. repeat split; [by rewrite Nat.add_succ_r|].
    intros [|i] Hi; [rewrite Nat.add_0_r; eauto|].
    rewrite Nat.add_succ_r. apply Hf. lia.
Qed.

(** ** The orchestrator, path by path *)

Lemma respond_analysis_fails X G name_age messages w e :
  first_analysis X name_age messages w = inl e ->
  respond_to_girl X G name_age messages w =
  (inl e, extend [Invoke analyzer_chain (analyzer_args (stored_summary w name_age) messages);
                  GetRecord name_age] w).
Proof.
  unfold first_analysis, analyzer_args. intros H.
  unfold respond_to_girl, bind, get_record, invoke; simpl. by rewrite H.
Qed.

Lemma respond_contact_exit X G name_age messages w a :
  first_analysis X name_age messages w = inr a ->
  truthy (a_contact a) = true ->
  respond_to_girl X G name_age messages w = contact_exit_run X G name_age messages a w.
Proof.
  unfold first_analysis, analyzer_args. intros H Hc.
  unfold respond_to_girl, bind, get_record, invoke; simpl. rewrite H; simpl.
  rewrite Hc. unfold contact_exit_run, hook_outcome, hook_effects, call.
  destruct (notifications_hook G) as [hook|]; [destruct (truthy hook)|].
  - destruct (requests_get X hook _) as [e|]; [reflexivity|].
    destruct (pushbullet G) as [pb|]; [|reflexivity].
    simpl. destruct (push_note X pb _ _); reflexivity.
  - destruct (pushbullet G) as [pb|]; [|reflexivity].
    simpl. destruct (push_note X pb _ _); reflexivity.
  - destruct (pushbullet G) as [pb|]; [|reflexivity].
    simpl. destruct (push_note X pb _ _); reflexivity.
Qed.

Lemma selected_tactics_class X messages a w c :
  selected_tactics X messages a w = inr c ->
  match c with
  | CommanderStep1Output _ _ => a_future_step a = "step1"
  | CommanderStep2Output _ _ => a_future_step a <> "step1"
  end.
Proof.
  unfold selected_tactics, tactic_selection, commander_chain.
  destruct (String.eqb_spec (a_future_step a) "step1") as [E|E]; simpl;
    match goal with |- context [commander_llm ?X ?cls ?n ?args] =>
      destruct (commander_llm X cls n args) end; simpl; intros H; try done;
    by injection H as <-.
Qed.

Lemma respond_commander_fails X G name_age messages w a e :
  first_analysis X name_age messages w = inr a ->
  truthy (a_contact a) = false ->
  selected_tactics X messages a w = inl e ->
  respond_to_girl X G name_age messages w =
  (inl e,
   emit (Invoke (commander_chain (a_future_step a)) (analyzer_args (a_summary a) messages))
        (analyzed name_age messages a w)).
Proof.
  unfold first_analysis, selected_tactics, tactic_selection, analyzer_args.
  intros H Hc Hs.
  unfold respond_to_girl, bind at 1 2 3 4, get_record, invoke at 1; simpl. rewrite H; simpl.
  rewrite Hc. unfold bind at 1 2, invoke at 1, lift at 1; simpl.
  destruct (run_chain X _ _ _) as [e'|o]; [by injection Hs as ->|].
  by rewrite Hs.
Qed.

Lemma respond_no_contact X G name_age messages w a c :
  first_analysis X name_age messages w = inr a ->
  truthy (a_contact a) = false ->
  selected_tactics X messages a w = inr c ->
  respond_to_girl X G name_age messages w =
  reply_stage X G name_age messages a (c_tags c) (guidance X w (c_tags c))
    (before_writer name_age messages a (c_tags c) w).
Proof.
  unfold first_analysis, selected_tactics, tactic_selection, analyzer_args.
  intros H Hc Hs.
  unfold respond_to_girl, bind at 1 2 3 4, get_record, invoke at 1; simpl. rewrite H; simpl.
  rewrite Hc. unfold bind at 1 2, invoke at 1, lift at 1; simpl.
  destruct (run_chain X _ _ _) as [e'|o]; [done|].
  rewrite Hs. unfold bind at 1. rewrite mapM_query_rule. reflexivity.
Qed.

Lemma reply_stage_run X G name_age messages a tags rules w :
  let r := retry_run X writer_chain (writer_args G rules messages) (Some "Writer") 90 2
             (llm_calls (log w)) in
  let w3 := extend (snd r) w in
  reply_stage X G name_age messages a tags rules w =
  match fst r with
  | inl e => (inl e, w3)
  | inr v =>
      match getitem v "message" with
      | inl e => (inl e, w3)
      | inr msgs =>
          if refresh_needed tags then
            match analyzer_llm X (llm_calls (log w3)) (refresh_args X a msgs) with
            | inl e => (inl e, emit (Invoke analyzer_chain (refresh_args X a msgs)) w3)
            | inr a2 =>
                (inr msgs,
                 upserted name_age (Some (a_summary a2)) false
                   (extend [Print (AnalyzerSays a);
                            Invoke analyzer_chain (refresh_args X a msgs)] w3))
            end
          else (inr msgs, upserted name_age (Some (a_summary a)) false w3)
      end
  end.
Proof.
  intros r w3. unfold reply_stage, bind at 1. rewrite invoke_chain_run.
  fold r. fold w3. destruct (fst r) as [e|v]; [done|].
  unfold bind at 1, lift at 1. destruct (getitem v "message") as [e|msgs]; [done|].
  unfold bind at 1. destruct (refresh_needed tags); [|reflexivity].
  unfold bind at 1, invoke at 1, refresh_args, analyzer_args; simpl.
  destruct (analyzer_llm X _ _) as [e|a2]; reflexivity.
Qed.

Lemma retry_effect_reply c args wait e :
  c = writer_chain -> retry_effect c args wait e -> reply_effect e.
Proof. intros -> [->|[->|[p ->]]]; unfold reply_effect; eauto 6. Qed.

Lemma reply_effect_not_upsert e : reply_effect e -> is_upsert e = false.
Proof. by intros [[? ->]|[[? ->]|[[? ->]|[? ->]]]]. Qed.

(** Every run of the reply stage either fails with the store untouched, or
    persists once, as its last effect, after a Writer answer that parsed and
    had a [message] entry. *)
Lemma reply_stage_outcome X G name_age messages a tags rules w :
  exists evs, Forall reply_effect evs /\
    ((exists e, reply_stage X G name_age messages a tags rules w = (inl e, extend evs w)) \/
     (exists v msgs s n,
        reply_stage X G name_age messages a tags rules w =
          (inr msgs, upserted name_age (Some s) false (extend evs w)) /\
        Print (ModuleSays (Some "Writer") v) ∈ evs /\
        getitem v "message" = inr msgs /\
        n < 3 /\
        attempt X writer_chain (writer_args G rules messages) (llm_calls (log w) + n) = inr v)).
Proof.
  rewrite reply_stage_run.
  set (args := writer_args G rules messages).
  set (k := llm_calls (log w)).
  pose proof (retry_run_effects X writer_chain args (Some "Writer") 90 2 k) as Heff.
  pose proof (retry_run_success X writer_chain args (Some "Writer") 90 2 k) as Hok.
  destruct (retry_run X writer_chain args (Some "Writer") 90 2 k) as [r evs]; simpl in *.
  assert (Forall reply_effect evs) as Hevs.
  { eapply Forall_impl; [exact Heff|]. intros e. by apply retry_effect_reply. }
  destruct r as [e|v]; [exists evs; eauto|].
  destruct (Hok v eq_refl) as (n & evs' & Hn & Ha & _ & Hsnd).
  assert (Print (ModuleSays (Some "Writer") v) ∈ evs) as Hp
    by (rewrite Hsnd; apply list_elem_of_here).
  destruct (getitem v "message") as [e|msgs] eqn:Hg; [exists evs; eauto|].
  destruct (refresh_needed tags).
  - destruct (analyzer_llm X _ _) as [e|a2].
    + exists (Invoke analyzer_chain (refresh_args X a msgs) :: evs). split.
      * apply Forall_cons; split; [unfold reply_effect; eauto|exact Hevs].
      * left. eexists. reflexivity.
    + exists (Print (AnalyzerSays a) :: Invoke analyzer_chain (refresh_args X a msgs) :: evs).
      split.
      * apply Forall_cons; split; [unfold reply_effect; eauto 6|].
        apply Forall_cons; split; [unfold reply_effect; eauto|exact Hevs].
      * right. exists v, msgs, (a_summary a2), n.
        split; [reflexivity|]. split; [by do 2 apply list_elem_of_further|].
        split; [done|]. split; [lia|done].
  - exists evs. split; [exact Hevs|]. right. exists v, msgs, (a_summary a), n.
    split; [reflexivity|]. split; [exact Hp|]. split; [done|]. split; [lia|done].
Qed.

Lemma log_upserted name_age s b w :
  log (upserted name_age s b w) = UpsertRecord name_age s b :: log w.
Proof. reflexivity. Qed.

Lemma stored_summary_upserted name_age s b w :
  stored_summary (upserted name_age (Some s) b w) name_age = s.
Proof. unfold stored_summary, upserted; simpl. by rewrite lookup_insert_eq. Qed.

Lemma llm_calls_map_query tags : llm_calls (rev (map QueryRule tags)) = 0.
Proof.
  induction tags as [|t ts IH]; [done|].
  simpl. rewrite llm_calls_app, IH. reflexivity.
Qed.

Lemma llm_calls_before_writer name_age messages a tags w :
  llm_calls (log (before_writer name_age messages a tags w)) = llm_calls (log w) + 2.
Proof.
  unfold before_writer, analyzed, extend, emit; simpl.
  rewrite llm_calls_app, llm_calls_map_query. simpl. lia.
Qed.

Lemma commander_chain_not_reply fs :
  commander_chain fs <> writer_chain /\ commander_chain fs <> analyzer_chain.
Proof. unfold commander_chain. by destruct (String.eqb fs "step1"). Qed.

Lemma reply_effect_not_commander e fs args :
  reply_effect e -> e <> Invoke (commander_chain fs) args.
Proof.
  destruct (commander_chain_not_reply fs) as [Hw Ha].
  intros [[? ->]|[[? ->]|[[? ->]|[? ->]]]]; congruence.
Qed.

(** Every cycle without a contact whose Commander answered: the effects
    after the rule lookups are reply effects, followed on success by the
    one write. *)
Lemma respond_no_contact_outcome X G name_age messages w a c :
  first_analysis X name_age messages w = inr a ->
  truthy (a_contact a) = false ->
  selected_tactics X messages a w = inr c ->
  let w2 := before_writer name_age messages a (c_tags c) w in
  exists evs, Forall reply_effect evs /\
    ((exists e, respond_to_girl X G name_age messages w = (inl e, extend evs w2)) \/
     (exists v msgs s n,
        respond_to_girl X G name_age messages w =
          (inr msgs, upserted name_age (Some s) false (extend evs w2)) /\
        Print (ModuleSays (Some "Writer") v) ∈ evs /\
        getitem v "message" = inr msgs /\
        n < 3 /\
        attempt X writer_chain (writer_args G (guidance X w (c_tags c)) messages)
                (llm_calls (log w) + 2 + n) = inr v)).
Proof.
  intros Ha Hc Hs w2. rewrite (respond_no_contact _ _ _ _ _ _ _ Ha Hc Hs). fold w2.
  destruct (reply_stage_outcome X G name_age messages a (c_tags c)
              (guidance X w (c_tags c)) w2) as (evs & Hevs & H).
  exists evs. split; [exact Hevs|].
  destruct H as [H|(v & msgs & s & n & H1 & H2 & H3 & H4 & H5)]; [by left|].
  right. exists v, msgs, s, n. repeat split; try done.
  unfold w2 in H5. by rewrite llm_calls_before_writer in H5.
Qed.

Lemma analyzer_calls_app l l' : analyzer_calls (l ++ l') = analyzer_calls l + analyzer_calls l'.
Proof.
  induction l as [|e l IH]; [done|].
  destruct e as [|[[] ? ?|] ?| | | | | |]; simpl; rewrite IH; lia.
Qed.

Lemma analyzer_calls_retry args wait evs :
  Forall (retry_effect writer_chain args wait) evs -> analyzer_calls evs = 0.
Proof.
  induction 1 as [|e evs He _ IH]; [done|].
  by destruct He as [->|[->|[p ->]]].
Qed.

Lemma analyzer_calls_map_query tags : analyzer_calls (rev (map QueryRule tags)) = 0.
Proof.
  induction tags as [|t ts IH]; [done|].
  simpl. rewrite analyzer_calls_app, IH. reflexivity.
Qed.

Lemma analyzer_calls_before_writer name_age messages a tags w :
  analyzer_calls (log (before_writer name_age messages a tags w)) = S (analyzer_calls (log w)).
Proof.
  unfold before_writer, analyzed, extend, emit, commander_chain; simpl.
  rewrite analyzer_calls_app, analyzer_calls_map_query.
  by destruct (String.eqb (a_future_step a) "step1").
Qed.

Lemma refresh_needed_spec tags :
  refresh_needed tags = true <-> "Attractive guy image" ∈ tags \/ "Storytelling" ∈ tags.
Proof.
  unfold refresh_needed. rewrite orb_true_iff, !bool_decide_eq_true. reflexivity.
Qed.

Lemma invoke_chain_exhausted X c args m w e1 e2 e3 :
  attempt X c args (llm_calls (log w)) = inl e1 ->
  attempt X c args (S (llm_calls (log w))) = inl e2 ->
  attempt X c args (S (S (llm_calls (log w)))) = inl e3 ->
  invoke_chain X c args m w =
  (inl (RetryError e3),
   extend [Print (ErrorEncountered e3); Invoke c args;
           Sleep 90; Print (ErrorEncountered e2); Invoke c args;
           Sleep 90; Print (ErrorEncountered e1); Invoke c args] w).
Proof. intros H1 H2 H3. rewrite invoke_chain_run. simpl. by rewrite H1, H2, H3. Qed.

Lemma invoke_chain_second_time X c args m w e1 v :
  attempt X c args (llm_calls (log w)) = inl e1 ->
  attempt X c args (S (llm_calls (log w))) = inr v ->
  invoke_chain X c args m w =
  (inr v,
   extend [Print (ModuleSays m v); Invoke c args;
           Sleep 90; Print (ErrorEncountered e1); Invoke c args] w).
Proof. intros H1 H2. rewrite invoke_chain_run. simpl. by rewrite H1, H2. Qed.

(** The first attempt is always made. *)
Lemma retry_run_invokes X c args m wait r k :
  Invoke c args ∈ snd (retry_run X c args m wait r k).
Proof.
  destruct r; simpl; destruct (attempt X c args k); simpl; set_solver.
Qed.

Lemma reply_stage_invokes_writer X G name_age messages a tags rules w :
  Invoke writer_chain (writer_args G rules messages)
    ∈ log (snd (reply_stage X G name_age messages a tags rules w)).
Proof.
  rewrite reply_stage_run.
  pose proof (retry_run_invokes X writer_chain (writer_args G rules messages)
                (Some "Writer") 90 2 (llm_calls (log w))) as Hin.
  destruct (retry_run X writer_chain _ _ _ _ _) as [r evs]; simpl in *.
  assert (Invoke writer_chain (writer_args G rules messages) ∈ evs ++ log w) as Hin'
    by (apply elem_of_app; by left).
  destruct r as [e|v]; [exact Hin'|].
  destruct (getitem v "message"); [exact Hin'|].
  destruct (refresh_needed tags); [destruct (analyzer_llm X _ _)|]; simpl;
    repeat apply list_elem_of_further; exact Hin'.
Qed.

Lemma before_writer_extend name_age messages a tags w :
  before_writer name_age messages a tags w =
  extend (rev (map QueryRule tags) ++
          [Invoke (commander_chain (a_future_step a)) (analyzer_args (a_summary a) messages);
           Print (AnalyzerSays a);
           Invoke analyzer_chain (analyzer_args (stored_summary w name_age) messages);
           GetRecord name_age]) w.
Proof. unfold before_writer, analyzed, extend, emit; simpl. by rewrite <- app_assoc. Qed.

Lemma query_rules_not_upsert tags :
  Forall (fun e => is_upsert e = false) (rev (map QueryRule tags)).
Proof.
  apply Forall_forall. intros e Hin.
  by apply elem_of_query_rules in Hin as [t ->].
Qed.

Lemma before_writer_not_upsert name_age messages a tags w evs :
  Forall reply_effect evs ->
  exists evs', extend evs (before_writer name_age messages a tags w) = extend evs' w /\
               Forall (fun e => is_upsert e = false) evs' /\
               forall e, e ∈ evs -> e ∈ evs'.
Proof.
  intros Hevs. rewrite before_writer_extend, extend_extend.
  eexists. split; [reflexivity|]. split.
  - apply Forall_app; split.
    + eapply Forall_impl; [exact Hevs|]. intros e. apply reply_effect_not_upsert.
    + apply Forall_app; split; [apply query_rules_not_upsert|].
      by repeat (apply Forall_cons; split).
  - intros e He. apply elem_of_app. by left.
Qed.

Lemma resolved_from_length X k tags : length (resolved_from X k tags) = length tags.
Proof. revert k. induction tags as [|t ts IH]; intros k; simpl; [done|]. by rewrite IH. Qed.

Lemma resolved_from_lookup X k tags i t :
  tags !! i = Some t -> resolved_from X k tags !! i = Some (rules_db X (k + i) t).
Proof.
  revert k i. induction tags as [|t' ts IH]; intros k [|i] H; simpl in *; try done.
  - injection H as ->. by rewrite Nat.add_0_r.
  - rewrite Nat.add_succ_r. by apply (IH (S k)).
Qed.

Lemma resolved_from_pure X k tags :
  (forall n n' t, rules_db X n t = rules_db X n' t) ->
  resolved_from X k tags = map (rules_db X 0) tags.
Proof.
  intros Hpure. revert k. induction tags as [|t ts IH]; intros k; simpl; [done|].
  by rewrite IH, (Hpure k 0).
Qed.

(** The reply stage only adds to what the retried Writer call left. *)
Lemma reply_stage_log X G name_age messages a tags rules w :
  exists evs,
    log (snd (reply_stage X G name_age messages a tags rules w)) =
    evs ++ log (snd (invoke_chain X writer_chain (writer_args G rules messages)
                       (Some "Writer") w)).
Proof.
  rewrite reply_stage_run, invoke_chain_run. cbv zeta.
  destruct (retry_run X writer_chain _ _ _ _ _) as [res evs]. cbn [fst snd].
  destruct res as [e|v]; [by exists []|].
  destruct (getitem v "message") as [e|msgs]; [by exists []|].
  destruct (refresh_needed tags); [destruct (analyzer_llm X _ _)|].
  - by eexists [_].
  - by eexists [_; _; _].
  - by eexists [_].
Qed.

(** The contact-exit path when the name [pushbullet] is bound and neither
    notification call raises: the two notifications, the suspension, no
    summary text written, [None] returned, and neither Commander nor Writer
    invoked. *)
Lemma contact_exit_suspends_when_push_bound X G name_age messages w a pb :
  first_analysis X name_age messages w = inr a ->
  truthy (a_contact a) = true ->
  pushbullet G = Some pb ->
  hook_outcome X G name_age (a_contact a) = None ->
  push_note X pb ("I planned date with " +:+ name_age) (a_contact a) = None ->
  let run := respond_to_girl X G name_age messages w in
  fst run = inr JNull /\
  log (snd run) =
    UpsertRecord name_age None true
    :: PushNote pb ("I planned date with " +:+ name_age) (a_contact a)
    :: hook_effects G name_age (a_contact a) ++ log (analyzed name_age messages a w) /\
  store (snd run) !! name_age =
    Some {| cs_summary := stored_summary w name_age; cs_suspended := true |} /\
  stored_summary (snd run) name_age = stored_summary w name_age /\
  llm_calls (log (snd run)) = S (llm_calls (log w)).
Proof.
  intros Ha Hc Hpb Hhook Hpush run. unfold run.
  rewrite (respond_contact_exit _ _ _ _ _ _ Ha Hc). unfold contact_exit_run.
  rewrite Hhook, Hpb. cbv zeta. rewrite Hpush. cbn [fst snd].
  set (pushed := emit _ _).
  assert (store (snd (upsert_record name_age None true pushed)) !! name_age =
          Some {| cs_summary := stored_summary w name_age; cs_suspended := true |}) as Hst.
  { unfold upsert_record, stored_summary; cbn [snd store].
    rewrite lookup_insert_eq. unfold pushed; cbn [store emit extend analyzed].
    destruct (store w !! name_age) as [r|]; cbn.
    - by rewrite orb_true_r.
    - done. }
  split; [done|]. split; [done|]. split; [exact Hst|]. split.
  - unfold stored_summary at 1. by rewrite Hst.
  - unfold pushed. cbn [upsert_record snd log emit extend llm_calls].
    rewrite llm_calls_app. unfold hook_effects.
    destruct (notifications_hook G) as [h|]; [destruct (truthy h)|]; reflexivity.
Qed.

(** ** Case analysis over the paths of a cycle *)

Lemma slept_app l l' : slept (l ++ l') = slept l + slept l'.
Proof.
  induction l as [|e l IH]; [done|].
  destruct e; simpl; rewrite IH; lia.
Qed.

Lemma retry_run_slept X c args m wait r k :
  slept (snd (retry_run X c args m wait r k)) =
  wait * (llm_calls (snd (retry_run X c args m wait r k)) - 1).
Proof.
  revert k. induction r as [|r IH]; intros k; simpl;
    destruct (attempt X c args k) as [e|v]; simpl; try lia.
  destruct (retry_run_attempts X c args m wait r (S k)) as [[H1 _] _].
  rewrite slept_app, llm_calls_app, IH. simpl. nia.
Qed.

(** To prove a property of every run of the reply stage it is enough to
    prove it of its five kinds of outcome. *)
Lemma reply_stage_paths X G name_age messages a tags rules w
    (P : Result json * World -> Prop) :
  let args := writer_args G rules messages in
  (forall last evs, writer_effects args evs -> P (inl (RetryError last), extend evs w)) ->
  (forall v e evs, writer_effects args evs ->
     Print (ModuleSays (Some "Writer") v) ∈ evs ->
     getitem v "message" = inl e -> P (inl e, extend evs w)) ->
  (forall v msgs e evs, writer_effects args evs ->
     Print (ModuleSays (Some "Writer") v) ∈ evs ->
     getitem v "message" = inr msgs -> refresh_needed tags = true ->
     analyzer_llm X (llm_calls (log (extend evs w))) (refresh_args X a msgs) = inl e ->
     P (inl e, emit (Invoke analyzer_chain (refresh_args X a msgs)) (extend evs w))) ->
  (forall v msgs a2 evs, writer_effects args evs ->
     Print (ModuleSays (Some "Writer") v) ∈ evs ->
     getitem v "message" = inr msgs -> refresh_needed tags = true ->
     analyzer_llm X (llm_calls (log (extend evs w))) (refresh_args X a msgs) = inr a2 ->
     P (inr msgs,
        upserted name_age (Some (a_summary a2)) false
          (extend [Print (AnalyzerSays a); Invoke analyzer_chain (refresh_args X a msgs)]
                  (extend evs w)))) ->
  (forall v msgs evs, writer_effects args evs ->
     Print (ModuleSays (Some "Writer") v) ∈ evs ->
     getitem v "message" = inr msgs -> refresh_needed tags = false ->
     P (inr msgs, upserted name_age (Some (a_summary a)) false (extend evs w))) ->
  P (reply_stage X G name_age messages a tags rules w).
Proof.
  intros args H1 H2 H3 H4 H5. rewrite reply_stage_run. cbv zeta. fold args.
  set (k := llm_calls (log w)).
  assert (writer_effects args (snd (retry_run X writer_chain args (Some "Writer") 90 2 k)))
    as Hw.
  { split; [apply retry_run_effects|]. split; [apply retry_run_attempts|].
    split; [apply retry_run_slept|apply retry_run_invokes]. }
  pose proof (retry_run_success X writer_chain args (Some "Writer") 90 2 k) as Hok.
  pose proof (retry_run_failure X writer_chain args (Some "Writer") 90 2 k) as Hko.
  destruct (retry_run X writer_chain args (Some "Writer") 90 2 k) as [res evs].
  cbn [fst snd] in *. destruct res as [e|v].
  - destruct (Hko e eq_refl) as (last & -> & _). by apply H1.
  - destruct (Hok v eq_refl) as (n & evs' & _ & _ & _ & Hsnd).
    assert (Print (ModuleSays (Some "Writer") v) ∈ evs) as Hp
      by (rewrite Hsnd; apply list_elem_of_here).
    destruct (getitem v "message") as [e|msgs] eqn:Hg; [by eapply H2|].
    destruct (refresh_needed tags) eqn:Hr; [|by eapply H5].
    destruct (analyzer_llm X _ _) as [e|a2] eqn:Ha2; [by eapply H3|by eapply H4].
Qed.

(** To prove a property of every run of [respond_to_girl] it is enough to
    prove it of the four paths the function has. *)
Lemma respond_paths X G name_age messages w (P : Result json * World -> Prop) :
  (forall e, first_analysis X name_age messages w = inl e ->
     P (inl e,
        extend [Invoke analyzer_chain (analyzer_args (stored_summary w name_age) messages);
                GetRecord name_age] w)) ->
  (forall a, first_analysis X name_age messages w = inr a ->
     truthy (a_contact a) = true ->
     P (contact_exit_run X G name_age messages a w)) ->
  (forall a e, first_analysis X name_age messages w = inr a ->
     truthy (a_contact a) = false ->
     selected_tactics X messages a w = inl e ->
     P (inl e,
        emit (Invoke (commander_chain (a_future_step a)) (analyzer_args (a_summary a) messages))
             (analyzed name_age messages a w))) ->
  (forall a c, first_analysis X name_age messages w = inr a ->
     truthy (a_contact a) = false ->
     selected_tactics X messages a w = inr c ->
     P (reply_stage X G name_age messages a (c_tags c) (guidance X w (c_tags c))
          (before_writer name_age messages a (c_tags c) w))) ->
  P (respond_to_girl X G name_age messages w).
Proof.
  intros HA HB HC HD.
  destruct (first_analysis X name_age messages w) as [e|a] eqn:Ha.
  - rewrite (respond_analysis_fails _ _ _ _ _ _ Ha). by apply HA.
  - destruct (truthy (a_contact a)) eqn:Hc.
    + rewrite (respond_contact_exit _ _ _ _ _ _ Ha Hc). by apply HB.
    + destruct (selected_tactics X messages a w) as [e|c] eqn:Hs.
      * rewrite (respond_commander_fails _ _ _ _ _ _ _ Ha Hc Hs). by apply HC.
      * rewrite (respond_no_contact _ _ _ _ _ _ _ Ha Hc Hs). by apply HD.
Qed.

Lemma writer_effects_reply args evs : writer_effects args evs -> Forall reply_effect evs.
Proof.
  intros [H _]. eapply Forall_impl; [exact H|]. intros e. by apply retry_effect_reply.
Qed.

Lemma writer_effects_args args evs args' :
  writer_effects args evs -> Invoke writer_chain args' ∈ evs -> args' = args.
Proof.
  intros [H _] Hin. rewrite Forall_forall in H.
  destruct (H _ Hin) as [Heq|[Heq|[p Heq]]]; [by injection Heq|done|done].
Qed.

(** The Writer invocations of the reply stage: there is one at least, and
    all are on the same arguments. *)
Lemma reply_stage_writer_invocations X G name_age messages a tags rules w :
  exists evs,
    log (snd (reply_stage X G name_age messages a tags rules w)) = evs ++ log w /\
    Invoke writer_chain (writer_args G rules messages) ∈ evs /\
    forall args', Invoke writer_chain args' ∈ evs -> args' = writer_args G rules messages.
Proof.
  apply reply_stage_paths.
  - intros last evs Hw. exists evs. split; [reflexivity|]. split; [apply Hw|].
    intros args'. by apply writer_effects_args.
  - intros v e evs Hw _ _. exists evs. split; [reflexivity|]. split; [apply Hw|].
    intros args'. by apply writer_effects_args.
  - intros v msgs e evs Hw _ _ _ _.
    exists (Invoke analyzer_chain (refresh_args X a msgs) :: evs).
    split; [reflexivity|]. split; [apply list_elem_of_further, Hw|].
    intros args' Hin. apply elem_of_cons in Hin as [Hin|Hin]; [discriminate Hin|].
    by eapply writer_effects_args.
  - intros v msgs a2 evs Hw _ _ _ _.
    exists (UpsertRecord name_age (Some (a_summary a2)) false :: Print (AnalyzerSays a)
            :: Invoke analyzer_chain (refresh_args X a msgs) :: evs).
    split; [reflexivity|]. split; [do 3 apply list_elem_of_further; apply Hw|].
    intros args' Hin.
    apply elem_of_cons in Hin as [Hin|Hin]; [discriminate Hin|].
    apply elem_of_cons in Hin as [Hin|Hin]; [discriminate Hin|].
    apply elem_of_cons in Hin as [Hin|Hin]; [discriminate Hin|].
    by eapply writer_effects_args.
  - intros v msgs evs Hw _ _ _.
    exists (UpsertRecord name_age (Some (a_summary a)) false :: evs).
    split; [reflexivity|]. split; [apply list_elem_of_further, Hw|].
    intros args' Hin. apply elem_of_cons in Hin as [Hin|Hin]; [discriminate Hin|].
    by eapply writer_effects_args.
Qed.

(** * The claims *)

Example load_full : load_module ready_host environ_full = inr globals_full.
Proof. reflexivity. Qed.

Example load_no_push : load_module ready_host environ_no_push = inr globals_no_push.
Proof. reflexivity. Qed.

Example load_hook_only : load_module ready_host environ_hook_only = inr globals_hook_only.
Proof. reflexivity. Qed.

Example load_incomplete : load_module ready_host ∅ = inl (KeyError "LANGUAGE").
Proof. reflexivity. Qed.

(** ** C10: the shape selector *)

(** C10. For every [future_step] other than the exact string "step1", be it
    "step2", "step3", the empty string or anything else, [commander_chain]
    builds the runnable of the step-2 class with its four-tag vocabulary;
    such a value never gets the step-1 runnable, which is selected for
    "step1" alone. *)
Theorem commander_chain_step2_unless_step1 (future_step : string) :
  future_step <> "step1" ->
  commander_chain future_step =
    create_structured_output_runnable cls_CommanderStep2Output Commander commander_step2_prompt /\
  output_class (commander_chain future_step) = Some cls_CommanderStep2Output /\
  length (tag_vocabulary cls_CommanderStep2Output) = 4 /\
  commander_chain future_step <> commander_chain "step1" /\
  output_class (commander_chain "step1") = Some cls_CommanderStep1Output.
Proof.
  intros Hne. unfold commander_chain.
  destruct (String.eqb_spec future_step "step1") as [E|_]; [done|].
  simpl. repeat split; done.
Qed.

Lemma commander_chain_step3_witness :
  "step3" <> "step1" /\
  commander_chain "step3" =
    create_structured_output_runnable cls_CommanderStep2Output Commander commander_step2_prompt.
Proof.
  assert ("step3" <> "step1") as H by discriminate.
  split; [exact H|]. exact (proj1 (commander_chain_step2_unless_step1 "step3" H)).
Defined.

Example commander_chain_empty_string :
  output_class (commander_chain "") = Some cls_CommanderStep2Output.
Proof. reflexivity. Qed.

(** ** C6: the retried call *)



(** ** C4: the Commander is given the Analyzer's phase *)

(** C4. In every cycle whose first analysis has an empty [contact], the one
    Commander invocation of the cycle is of [commander_chain] applied to the
    [future_step] the Analyzer returned, on the Analyzer's summary and the
    incoming messages; "step1" selects the step-1 class with its three tags,
    "step2" the step-2 class with its four tags, and the object read back is
    an instance of the selected class. *)
Theorem commander_invoked_with_analyzer_phase X G name_age messages w a :
  first_analysis X name_age messages w = inr a ->
  truthy (a_contact a) = false ->
  (exists evs,
     log (snd (respond_to_girl X G name_age messages w)) =
       evs ++ Invoke (commander_chain (a_future_step a))
                     (analyzer_args (a_summary a) messages)
           :: log (analyzed name_age messages a w) /\
     forall fs args, Invoke (commander_chain fs) args ∉ evs) /\
  (a_future_step a = "step1" ->
     output_class (commander_chain (a_future_step a)) = Some cls_CommanderStep1Output /\
     tag_vocabulary cls_CommanderStep1Output = ["Bond"; "Attractive guy image"; "Storytelling"]) /\
  (a_future_step a = "step2" ->
     output_class (commander_chain (a_future_step a)) = Some cls_CommanderStep2Output /\
     tag_vocabulary cls_CommanderStep2Output =
       ["Suggesting meeting"; "Comfort"; "Providing meeting details"; "Ask for contact"]) /\
  (forall c, selected_tactics X messages a w = inr c ->
     match c with
     | CommanderStep1Output _ _ => a_future_step a = "step1"
     | CommanderStep2Output _ _ => a_future_step a <> "step1"
     end).
Proof.
  intros Ha Hc. split; [|split; [|split]].
  - destruct (selected_tactics X messages a w) as [e|c] eqn:Hs.
    + rewrite (respond_commander_fails _ _ _ _ _ _ _ Ha Hc Hs).
      exists []. split; [reflexivity|]. intros fs args. apply not_elem_of_nil.
    + destruct (respond_no_contact_outcome X G _ _ _ _ _ Ha Hc Hs) as (evs & Hevs & H).
      assert (forall fs args, Invoke (commander_chain fs) args ∉ evs) as Hno.
      { intros fs args Hin. rewrite Forall_forall in Hevs.
        by apply (reply_effect_not_commander _ fs args (Hevs _ Hin)). }
      assert (forall fs args, Invoke (commander_chain fs) args ∉ rev (map QueryRule (c_tags c)))
        as Hq.
      { intros fs args Hin. by apply elem_of_query_rules in Hin as [t Ht]. }
      destruct H as [[e ->]|(v & msgs & s & n & -> & _)].
      * exists (evs ++ rev (map QueryRule (c_tags c))). split.
        -- simpl. unfold before_writer, extend, emit; simpl. by rewrite <- app_assoc.
        -- intros fs args Hin. apply elem_of_app in Hin as [Hin|Hin];
             [by eapply Hno|by eapply Hq].
      * exists (UpsertRecord name_age (Some s) false :: evs ++ rev (map QueryRule (c_tags c))).
        split.
        -- simpl. unfold before_writer, extend, emit; simpl. by rewrite <- app_assoc.
        -- intros fs args Hin. apply elem_of_cons in Hin as [Hin|Hin]; [done|].
           apply elem_of_app in Hin as [Hin|Hin]; [by eapply Hno|by eapply Hq].
  - intros ->. done.
  - intros ->. done.
  - intros c. apply selected_tactics_class.
Qed.

Lemma commander_invoked_with_analyzer_phase_witness :
  exists evs,
    log (snd (respond_to_girl (smooth ["Bond"]) globals_full "Jane 27" "hi there" fresh_world)) =
      evs ++ Invoke (commander_chain "step1") (analyzer_args "We are on step 1." "hi there")
          :: log (analyzed "Jane 27" "hi there" step1_analysis fresh_world) /\
    forall fs args, Invoke (commander_chain fs) args ∉ evs.
Proof.
  apply (proj1 (commander_invoked_with_analyzer_phase (smooth ["Bond"]) globals_full
                  "Jane 27" "hi there" fresh_world step1_analysis eq_refl eq_refl)).
Defined.

(** ** C5: when the summary is refreshed *)

(** C5. Once the Writer has answered with a [message] entry, the Analyzer is
    invoked a second time exactly when the selected tags contain
    "Attractive guy image" or "Storytelling".  Without such a tag (as for
    ["Bond"]) the cycle makes one Analyzer call and persists the summary of
    the first analysis; with one it makes exactly two Analyzer calls and
    persists the summary of the second. *)
Theorem summary_refresh_gating X G name_age messages w a c v w3 msgs :
  first_analysis X name_age messages w = inr a ->
  truthy (a_contact a) = false ->
  selected_tactics X messages a w = inr c ->
  invoke_chain X writer_chain (writer_args G (guidance X w (c_tags c)) messages)
               (Some "Writer") (before_writer name_age messages a (c_tags c) w) = (inr v, w3) ->
  getitem v "message" = inr msgs ->
  let run := respond_to_girl X G name_age messages w in
  (refresh_needed (c_tags c) = true <->
     "Attractive guy image" ∈ c_tags c \/ "Storytelling" ∈ c_tags c) /\
  refresh_needed ["Bond"] = false /\
  (refresh_needed (c_tags c) = false ->
     run = (inr msgs, upserted name_age (Some (a_summary a)) false w3) /\
     analyzer_calls (log (snd run)) = 1 + analyzer_calls (log w) /\
     stored_summary (snd run) name_age = a_summary a) /\
  (refresh_needed (c_tags c) = true ->
     analyzer_calls (log (snd run)) = 2 + analyzer_calls (log w) /\
     forall a2,
       analyzer_llm X (llm_calls (log w3)) (refresh_args X a msgs) = inr a2 ->
       run = (inr msgs,
              upserted name_age (Some (a_summary a2)) false
                (extend [Print (AnalyzerSays a);
                         Invoke analyzer_chain (refresh_args X a msgs)] w3)) /\
       stored_summary (snd run) name_age = a_summary a2).
Proof.
  intros Ha Hc Hs Hw Hg run.
  split; [apply refresh_needed_spec|]. split; [reflexivity|].
  assert (run = reply_stage X G name_age messages a (c_tags c) (guidance X w (c_tags c))
                  (before_writer name_age messages a (c_tags c) w)) as Hrun
    by (by apply respond_no_contact).
  rewrite reply_stage_run in Hrun. cbv zeta in Hrun.
  rewrite invoke_chain_run in Hw.
  pose proof (retry_run_effects X writer_chain
                (writer_args G (guidance X w (c_tags c)) messages) (Some "Writer") 90 2
                (llm_calls (log (before_writer name_age messages a (c_tags c) w)))) as Heff.
  destruct (retry_run X writer_chain _ _ _ _ _) as [res evs].
  cbn [fst snd] in *. injection Hw as -> <-. rewrite Hg in Hrun.
  assert (analyzer_calls (evs ++ log (before_writer name_age messages a (c_tags c) w)) =
          S (analyzer_calls (log w))) as Hn.
  { rewrite analyzer_calls_app, analyzer_calls_before_writer.
    by rewrite (analyzer_calls_retry _ _ _ Heff). }
  split; intros Hr; rewrite Hr in Hrun.
  - rewrite Hrun. split; [reflexivity|]. split.
    + cbn [snd]. rewrite log_upserted, log_extend. cbn [analyzer_calls]. by rewrite Hn.
    + apply stored_summary_upserted.
  - split.
    + rewrite Hrun. destruct (analyzer_llm X _ _); cbn [snd];
        rewrite ?log_upserted, ?emit_extend, ?log_extend;
        cbn [analyzer_calls app analyzer_chain]; by rewrite Hn.
    + intros a2 H2. rewrite log_extend in H2. rewrite log_extend, H2 in Hrun.
      rewrite Hrun. split; [reflexivity|]. apply stored_summary_upserted.
Qed.

Lemma summary_refresh_gating_witness :
  let X := writer_fails_twice ["Storytelling"] in
  let run := respond_to_girl X globals_full "Jane 27" "hi there" world0 in
  analyzer_calls (log (snd run)) = 2 + analyzer_calls (log world0).
Proof.
  intros X run.
  pose (c := CommanderStep1Output "tell a story" ["Storytelling"]).
  pose (w2 := before_writer "Jane 27" "hi there" step1_analysis ["Storytelling"] world0).
  pose (w3 := snd (invoke_chain X writer_chain
                     (writer_args globals_full "Tell a short story." "hi there")
                     (Some "Writer") w2)).
  pose proof (summary_refresh_gating X globals_full "Jane 27" "hi there" world0
                step1_analysis c writer_json w3 (JList [JStr "Hey, how was your day?"])) as H.
  destruct H as (_ & _ & _ & H); [reflexivity..|].
  apply H. reflexivity.
Defined.

(** ** C7: nothing is persisted before the Writer has answered *)

(** C7. In a cycle whose first analysis has no [contact], every outcome is
    either a failure that leaves the store as it was, with no
    [upsert_record] among its effects, or a result whose single
    [upsert_record] is the last effect and comes after the Writer's answer
    was printed.  In particular, when the Writer fails on all three attempts
    the cycle fails with [RetryError] and the stored summary is unchanged. *)
Theorem no_write_before_writer_success X G name_age messages w a :
  first_analysis X name_age messages w = inr a ->
  truthy (a_contact a) = false ->
  let run := respond_to_girl X G name_age messages w in
  (exists evs, Forall (fun e => is_upsert e = false) evs /\
     ((exists e, run = (inl e, extend evs w)) \/
      (exists v msgs s,
         run = (inr msgs, upserted name_age (Some s) false (extend evs w)) /\
         Print (ModuleSays (Some "Writer") v) ∈ evs /\
         getitem v "message" = inr msgs))) /\
  (forall c,
     selected_tactics X messages a w = inr c ->
     (forall i, i < 3 -> exists e,
        attempt X writer_chain (writer_args G (guidance X w (c_tags c)) messages)
                (llm_calls (log w) + 2 + i) = inl e) ->
     exists last evs,
       run = (inl (RetryError last), extend evs w) /\
       Forall (fun e => is_upsert e = false) evs /\
       store (snd run) = store w /\
       stored_summary (snd run) name_age = stored_summary w name_age).
Proof.
  intros Ha Hc run. split.
  - destruct (selected_tactics X messages a w) as [e|c] eqn:Hs.
    + exists [Invoke (commander_chain (a_future_step a)) (analyzer_args (a_summary a) messages);
              Print (AnalyzerSays a);
              Invoke analyzer_chain (analyzer_args (stored_summary w name_age) messages);
              GetRecord name_age].
      split; [by repeat (apply Forall_cons; split)|].
      left. exists e. unfold run. by rewrite (respond_commander_fails _ _ _ _ _ _ _ Ha Hc Hs).
    + destruct (respond_no_contact_outcome X G _ _ _ _ _ Ha Hc Hs) as (evs & Hevs & H).
      destruct (before_writer_not_upsert name_age messages a (c_tags c) w evs Hevs)
        as (evs' & Hext & Hno & Hsub).
      exists evs'. split; [exact Hno|]. rewrite Hext in H.
      destruct H as [[e H]|(v & msgs & s & n & H & Hp & Hg & _)].
      * left. by exists e.
      * right. exists v, msgs, s. split; [exact H|]. split; [by apply Hsub|exact Hg].
  - intros c Hs Hfail.
    destruct (Hfail 0) as [e1 H1]; [lia|].
    destruct (Hfail 1) as [e2 H2]; [lia|].
    destruct (Hfail 2) as [e3 H3]; [lia|].
    assert (run = (inl (RetryError e3),
                   extend [Print (ErrorEncountered e3);
                           Invoke writer_chain (writer_args G (guidance X w (c_tags c)) messages);
                           Sleep 90; Print (ErrorEncountered e2);
                           Invoke writer_chain (writer_args G (guidance X w (c_tags c)) messages);
                           Sleep 90; Print (ErrorEncountered e1);
                           Invoke writer_chain (writer_args G (guidance X w (c_tags c)) messages)]
                          (before_writer name_age messages a (c_tags c) w))) as Hrun.
    { unfold run. rewrite (respond_no_contact _ _ _ _ _ _ _ Ha Hc Hs).
      unfold reply_stage, bind at 1.
      rewrite (invoke_chain_exhausted _ _ _ _ _ e1 e2 e3); [done|..];
        rewrite llm_calls_before_writer.
      - by rewrite Nat.add_0_r in H1.
      - by replace (S (llm_calls (log w) + 2)) with (llm_calls (log w) + 2 + 1) by lia.
      - by replace (S (S (llm_calls (log w) + 2))) with (llm_calls (log w) + 2 + 2) by lia. }
    rewrite before_writer_extend, extend_extend in Hrun.
    exists e3. eexists. split; [exact Hrun|]. split.
    + apply Forall_app; split; [by repeat (apply Forall_cons; split)|].
      apply Forall_app; split; [apply query_rules_not_upsert|].
      by repeat (apply Forall_cons; split).
    + rewrite Hrun. split; reflexivity.
Qed.

Lemma no_write_before_writer_success_witness :
  exists last evs,
    respond_to_girl writer_down globals_full "Jane 27" "hi there" world0 =
      (inl (RetryError last), extend evs world0) /\
    Forall (fun e => is_upsert e = false) evs /\
    store (snd (respond_to_girl writer_down globals_full "Jane 27" "hi there" world0)) =
      store world0 /\
    stored_summary (snd (respond_to_girl writer_down globals_full "Jane 27" "hi there" world0))
                   "Jane 27" = stored_summary world0 "Jane 27".
Proof.
  apply (proj2 (no_write_before_writer_success writer_down globals_full "Jane 27" "hi there"
                  world0 step1_analysis eq_refl eq_refl)
           (CommanderStep1Output "build rapport" ["Bond"]) eq_refl).
  intros i _. exists (ChainError "timeout"). reflexivity.
Defined.

(** ** C8: the guidance block *)

(** C8. In every cycle that reaches the Writer, the [rules] argument of
    every Writer attempt, and there is at least one, is the guidance texts of
    the selected tags, one per tag and in the order of the tags, joined by
    the one separator of line 131: a newline, three hashes, a newline, a dash
    and a space, between consecutive texts and nowhere else.  If the rule
    lookup is a pure function of the tag, resolving the same tags again, from
    any other state, gives the same texts and the same block. *)
Theorem guidance_block_in_tag_order X G name_age messages w a c :
  first_analysis X name_age messages w = inr a ->
  truthy (a_contact a) = false ->
  selected_tactics X messages a w = inr c ->
  let tags := c_tags c in
  let k := rule_queries (log w) in
  let resolved := resolved_from X k tags in
  (exists evs,
     log (snd (respond_to_girl X G name_age messages w)) =
       evs ++ log (before_writer name_age messages a tags w) /\
     Invoke writer_chain (writer_args G (join rules_separator resolved) messages) ∈ evs /\
     forall args', Invoke writer_chain args' ∈ evs ->
                   args' = writer_args G (join rules_separator resolved) messages) /\
  length resolved = length tags /\
  (forall i t, tags !! i = Some t -> resolved !! i = Some (rules_db X (k + i) t)) /\
  rules_separator = String "010"%char ("###" +:+ String "010"%char "- ") /\
  (forall t1 t2 texts,
     join rules_separator (t1 :: t2 :: texts) =
     t1 +:+ String "010"%char ("###" +:+ String "010"%char ("- " +:+
       join rules_separator (t2 :: texts)))) /\
  (forall t1, join rules_separator [t1] = t1) /\
  join rules_separator [] = "" /\
  ((forall n n' t, rules_db X n t = rules_db X n' t) ->
   forall w1 w2,
     fst (mapM (query_rule X) tags w1) = fst (mapM (query_rule X) tags w2) /\
     guidance X w1 tags = guidance X w2 tags /\
     resolved = map (rules_db X 0) tags).
Proof.
  intros Ha Hc Hs tags k resolved.
  split; [|split; [|split; [|split; [|split; [|split; [|split]]]]]].
  - rewrite (respond_no_contact _ _ _ _ _ _ _ Ha Hc Hs).
    apply reply_stage_writer_invocations.
  - apply resolved_from_length.
  - intros i t. apply resolved_from_lookup.
  - reflexivity.
  - reflexivity.
  - reflexivity.
  - reflexivity.
  - intros Hpure w1 w2. rewrite !mapM_query_rule. unfold guidance, resolved. cbn [fst].
    by rewrite !(resolved_from_pure X _ tags Hpure).
Qed.

Lemma guidance_block_in_tag_order_witness :
  fst (mapM (query_rule (smooth ["Bond"; "Storytelling"])) ["Bond"; "Storytelling"]
            fresh_world) =
  fst (mapM (query_rule (smooth ["Bond"; "Storytelling"])) ["Bond"; "Storytelling"]
            world0) /\
  guidance (smooth ["Bond"; "Storytelling"]) fresh_world ["Bond"; "Storytelling"] =
  guidance (smooth ["Bond"; "Storytelling"]) world0 ["Bond"; "Storytelling"] /\
  resolved_from (smooth ["Bond"; "Storytelling"]) (rule_queries (log fresh_world))
                ["Bond"; "Storytelling"] =
  map (rules_db (smooth ["Bond"; "Storytelling"]) 0) ["Bond"; "Storytelling"].
Proof.
  pose proof (guidance_block_in_tag_order (smooth ["Bond"; "Storytelling"]) globals_full
                "Jane 27" "hi there" fresh_world step1_analysis
                (CommanderStep1Output "build rapport" ["Bond"; "Storytelling"])
                eq_refl eq_refl eq_refl) as H.
  destruct H as (_ & _ & _ & _ & _ & _ & _ & H).
  apply (H (fun _ _ _ => eq_refl) fresh_world world0).
Defined.

Example guidance_two_tags :
  guidance (smooth ["Bond"; "Storytelling"]) fresh_world ["Bond"; "Storytelling"] =
  "Ask about her day." +:+ nl +:+ "###" +:+ nl +:+ "- Tell a short story.".
Proof. reflexivity. Qed.

(** ** C9: what the entry point returns *)



(** ** C2: which calls are retried *)

(** A transient failure of the Analyzer, and one of the Commander, each of
    which the next invocation would have survived, fail the cycle at once:
    one invocation, no sleep, the model's own exception. *)
Lemma analyzer_and_commander_not_retried :
  (first_analysis analyzer_hiccup "Jane 27" "hi there" world0 = inl (ChainError "timeout") /\
   analyzer_llm analyzer_hiccup 1 (analyzer_args "We are on step 2." "hi there")
     = inr step1_analysis /\
   respond_to_girl analyzer_hiccup globals_full "Jane 27" "hi there" world0 =
     (inl (ChainError "timeout"),
      extend [Invoke analyzer_chain (analyzer_args "We are on step 2." "hi there");
              GetRecord "Jane 27"] world0)) /\
  (selected_tactics commander_hiccup "hi there" step1_analysis world0
     = inl (ChainError "timeout") /\
   commander_llm commander_hiccup cls_CommanderStep1Output 2
                 (analyzer_args "We are on step 1." "hi there")
     = inr ("build rapport", ["Bond"]) /\
   respond_to_girl commander_hiccup globals_full "Jane 27" "hi there" world0 =
     (inl (ChainError "timeout"),
      extend [Invoke (commander_chain "step1") (analyzer_args "We are on step 1." "hi there");
              Print (AnalyzerSays step1_analysis);
              Invoke analyzer_chain (analyzer_args "We are on step 2." "hi there");
              GetRecord "Jane 27"] world0)).
Proof. repeat split; reflexivity. Qed.

(** C2 (amended). Of the three model-backed calls only the Writer's goes
    through [invoke_chain] and its bounded retry: a failed first attempt of
    the Writer is printed, followed by a sleep of 90 and a second attempt.
    The Analyzer and the Commander are invoked directly, once, and a failure
    of either is propagated at once as the cycle's failure. *)
Theorem only_writer_is_retried X G name_age messages w :
  let run := respond_to_girl X G name_age messages w in
  (forall e,
     first_analysis X name_age messages w = inl e ->
     run = (inl e,
            extend [Invoke analyzer_chain (analyzer_args (stored_summary w name_age) messages);
                    GetRecord name_age] w)) /\
  (forall a e,
     first_analysis X name_age messages w = inr a ->
     truthy (a_contact a) = false ->
     selected_tactics X messages a w = inl e ->
     run = (inl e,
            emit (Invoke (commander_chain (a_future_step a))
                         (analyzer_args (a_summary a) messages))
                 (analyzed name_age messages a w))) /\
  (forall a c e1 v,
     first_analysis X name_age messages w = inr a ->
     truthy (a_contact a) = false ->
     selected_tactics X messages a w = inr c ->
     let args := writer_args G (guidance X w (c_tags c)) messages in
     attempt X writer_chain args (llm_calls (log w) + 2) = inl e1 ->
     attempt X writer_chain args (llm_calls (log w) + 3) = inr v ->
     exists evs,
       log (snd run) =
       evs ++ [Print (ModuleSays (Some "Writer") v); Invoke writer_chain args;
               Sleep 90; Print (ErrorEncountered e1); Invoke writer_chain args]
           ++ log (before_writer name_age messages a (c_tags c) w)).
Proof.
  intros run. split; [|split].
  - intros e He. by apply respond_analysis_fails.
  - intros a e Ha Hc Hs. by apply respond_commander_fails.
  - intros a c e1 v Ha Hc Hs args H1 H2.
    unfold run. rewrite (respond_no_contact _ _ _ _ _ _ _ Ha Hc Hs).
    destruct (reply_stage_log X G name_age messages a (c_tags c) (guidance X w (c_tags c))
                (before_writer name_age messages a (c_tags c) w)) as [evs Hevs].
    exists evs. rewrite Hevs. fold args.
    rewrite (invoke_chain_second_time _ _ _ _ _ e1 v); [done|..];
      rewrite llm_calls_before_writer; [done|].
    by replace (S (llm_calls (log w) + 2)) with (llm_calls (log w) + 3) by lia.
Qed.

Lemma only_writer_is_retried_witness :
  respond_to_girl analyzer_hiccup globals_full "Jane 27" "hi there" world0 =
    (inl (ChainError "timeout"),
     extend [Invoke analyzer_chain (analyzer_args (stored_summary world0 "Jane 27") "hi there");
             GetRecord "Jane 27"] world0).
Proof.
  apply (proj1 (only_writer_is_retried analyzer_hiccup globals_full "Jane 27" "hi there" world0)).
  reflexivity.
Defined.

(** ** C1 and C3: the contact-exit path *)

(** C3 (code defect). Started without PUSHBULLET_API_KEY, the module never
    binds the name [pushbullet]; the contact-exit path then stops at line 124
    with [NameError], before [upsert_record]: nothing is pushed, nothing is
    persisted, and the cycle does not complete. *)
Theorem contact_exit_raises_without_push_key :
  load_module ready_host environ_no_push = inr globals_no_push /\
  first_analysis contact_given "Jane 27" "my insta is jane_doe" world0 = inr contact_analysis /\
  respond_to_girl contact_given globals_no_push "Jane 27" "my insta is jane_doe" world0 =
    (inl (NameError "pushbullet"),
     analyzed "Jane 27" "my insta is jane_doe" contact_analysis world0).
Proof. repeat split; reflexivity. Qed.

(** C1 (code defect). With a webhook but no push key configured, a cycle
    whose analysis carries a contact fires the webhook and then fails with
    [NameError]: the Commander and the Writer are not invoked and no summary
    is written, but the contact is not marked suspended either, and the
    caller gets an exception instead of [None]. *)
Theorem contact_exit_not_suspended_without_push_key :
  let run := respond_to_girl contact_given globals_hook_only "Jane 27"
               "my insta is jane_doe" world0 in
  load_module ready_host environ_hook_only = inr globals_hook_only /\
  truthy (a_contact contact_analysis) = true /\
  fst run = inl (NameError "pushbullet") /\
  log (snd run) =
    [RequestsGet "https://hooks.example/date"
       [("name_age", "Jane 27"); ("contact", "Instagram jane_doe")];
     Print (AnalyzerSays contact_analysis);
     Invoke analyzer_chain (analyzer_args "We are on step 2." "my insta is jane_doe");
     GetRecord "Jane 27"] /\
  store (snd run) !! "Jane 27" =
    Some {| cs_summary := "We are on step 2."; cs_suspended := false |}.
Proof. repeat split; reflexivity. Qed.

Example contact_exit_with_push_key :
  let run := respond_to_girl contact_given globals_full "Jane 27"
               "my insta is jane_doe" world0 in
  fst run = inr JNull /\
  store (snd run) !! "Jane 27" =
    Some {| cs_summary := "We are on step 2."; cs_suspended := true |} /\
  llm_calls (log (snd run)) = 1.
Proof.
  destruct (contact_exit_suspends_when_push_bound contact_given globals_full "Jane 27"
              "my insta is jane_doe" world0 contact_analysis (PushbulletClient "o.key")
              eq_refl eq_refl eq_refl eq_refl eq_refl) as (H1 & _ & H3 & _ & H5).
  intros run. split; [exact H1|]. split; [exact H3|exact H5].
Qed.

(** * Further properties of the pipeline *)

Lemma writer_effects_quiet args evs :
  writer_effects args evs -> Forall (fun e => quiet e = true) evs.
Proof.
  intros [H _]. eapply Forall_impl; [exact H|].
  by intros e [->|[->|[p ->]]].
Qed.

Lemma query_rules_quiet tags : Forall (fun e => quiet e = true) (rev (map QueryRule tags)).
Proof.
  apply Forall_forall. intros e Hin. by apply elem_of_query_rules in Hin as [t ->].
Qed.

Lemma before_writer_split name_age messages a tags w evs :
  extend evs (before_writer name_age messages a tags w) =
  extend ((evs ++ rev (map QueryRule tags) ++
           [Invoke (commander_chain (a_future_step a)) (analyzer_args (a_summary a) messages);
            Print (AnalyzerSays a)])
          ++ opening name_age messages w) w.
Proof.
  rewrite before_writer_extend, extend_extend. f_equal.
  unfold opening. rewrite <- !app_assoc. reflexivity.
Qed.

Lemma before_writer_quiet messages a tags evs :
  Forall (fun e => quiet e = true) evs ->
  Forall (fun e => quiet e = true)
    (evs ++ rev (map QueryRule tags) ++
     [Invoke (commander_chain (a_future_step a)) (analyzer_args (a_summary a) messages);
      Print (AnalyzerSays a)]).
Proof.
  intros Hw. apply Forall_app; split; [exact Hw|].
  apply Forall_app; split; [apply query_rules_quiet|].
  by repeat (apply Forall_cons; split).
Qed.

Lemma hook_effects_spec G name_age contact e :
  e ∈ hook_effects G name_age contact <->
  exists url, notifications_hook G = Some url /\ url <> "" /\
              e = RequestsGet url [("name_age", name_age); ("contact", contact)].
Proof.
  unfold hook_effects. destruct (notifications_hook G) as [[|c url]|]; simpl.
  - rewrite elem_of_nil. split; [done|]. by intros (url & [= <-] & Hne & _).
  - rewrite list_elem_of_singleton. split.
    + intros ->. by eexists.
    + by intros (url' & [= <-] & _ & ->).
  - rewrite elem_of_nil. split; [done|]. by intros (url & [=] & _).
Qed.

Lemma reply_effect_quiet e : reply_effect e -> quiet e = true.
Proof. by intros [[? ->]|[[? ->]|[[? ->]|[? ->]]]]. Qed.

Lemma analyzed_split name_age messages a w evs :
  extend evs (analyzed name_age messages a w) =
  extend ((evs ++ [Print (AnalyzerSays a)]) ++ opening name_age messages w) w.
Proof.
  unfold analyzed, opening. rewrite extend_extend. f_equal.
  rewrite <- app_assoc. reflexivity.
Qed.

Lemma llm_calls_query_rules tags : llm_calls (rev (map QueryRule tags)) = 0.
Proof. apply llm_calls_map_query. Qed.

Lemma slept_query_rules tags : slept (rev (map QueryRule tags)) = 0.
Proof.
  induction tags as [|t ts IH]; [done|].
  simpl. rewrite slept_app, IH. reflexivity.
Qed.

Lemma before_writer_counts messages a tags evs :
  let all := evs ++ rev (map QueryRule tags) ++
             [Invoke (commander_chain (a_future_step a)) (analyzer_args (a_summary a) messages);
              Print (AnalyzerSays a)] in
  llm_calls all = llm_calls evs + 1 /\ slept all = slept evs.
Proof.
  cbv zeta. rewrite !llm_calls_app, !slept_app, llm_calls_query_rules, slept_query_rules.
  simpl. lia.
Qed.

(** The reply stage in the shape of a cycle. *)
Lemma reply_shape X G name_age messages a tags rules w :
  exists evs,
    cycle_shape name_age messages w
      (reply_stage X G name_age messages a tags rules (before_writer name_age messages a tags w))
      evs /\
    Forall (fun e => quiet e = true) evs /\
    2 <= llm_calls evs <= 5 /\ slept evs <= 180.
Proof.
  apply reply_stage_paths.
  - intros last evs Hw. eexists. split; [left; eexists; by rewrite before_writer_split|].
    split; [by apply before_writer_quiet, (writer_effects_quiet _ _ Hw)|].
    destruct (before_writer_counts messages a tags evs) as [-> ->].
    destruct Hw as (_ & Hn & Hs & _). lia.
  - intros v e evs Hw _ _. eexists. split; [left; eexists; by rewrite before_writer_split|].
    split; [by apply before_writer_quiet, (writer_effects_quiet _ _ Hw)|].
    destruct (before_writer_counts messages a tags evs) as [-> ->].
    destruct Hw as (_ & Hn & Hs & _). lia.
  - intros v msgs e evs Hw _ _ _ _. eexists. split.
    + left. eexists. by rewrite emit_extend, extend_extend, before_writer_split.
    + split.
      * apply before_writer_quiet. apply Forall_app; split;
          [by repeat (apply Forall_cons; split)|by apply (writer_effects_quiet _ _ Hw)].
      * destruct (before_writer_counts messages a tags
                    ([Invoke analyzer_chain (refresh_args X a msgs)] ++ evs)) as [-> ->].
        destruct Hw as (_ & Hn & Hs & _). simpl. lia.
  - intros v msgs a2 evs Hw _ _ _ _. eexists. split.
    + right. eexists _, _, _. split; [by rewrite extend_extend, before_writer_split|done].
    + split.
      * apply before_writer_quiet. apply Forall_app; split;
          [by repeat (apply Forall_cons; split)|by apply (writer_effects_quiet _ _ Hw)].
      * destruct (before_writer_counts messages a tags
                    ([Print (AnalyzerSays a); Invoke analyzer_chain (refresh_args X a msgs)]
                     ++ evs)) as [-> ->].
        destruct Hw as (_ & Hn & Hs & _). simpl. lia.
  - intros v msgs evs Hw _ _ _. eexists. split.
    + right. eexists _, _, _. split; [by rewrite before_writer_split|done].
    + split; [by apply before_writer_quiet, (writer_effects_quiet _ _ Hw)|].
      destruct (before_writer_counts messages a tags evs) as [-> ->].
      destruct Hw as (_ & Hn & Hs & _). lia.
Qed.

(** The shape of every cycle, with what is known of its effects on each
    path. *)
Lemma respond_shape X G name_age messages w :
  exists evs,
    cycle_shape name_age messages w (respond_to_girl X G name_age messages w) evs /\
    match first_analysis X name_age messages w with
    | inl _ => evs = []
    | inr a =>
        if truthy (a_contact a) then evs = contact_effects X G name_age a
        else Forall (fun e => quiet e = true) evs /\
             1 <= llm_calls evs <= 5 /\ slept evs <= 180
    end.
Proof.
  destruct (first_analysis X name_age messages w) as [e|a] eqn:Ha.
  - exists []. split; [|done]. left. exists e. by apply respond_analysis_fails.
  - destruct (truthy (a_contact a)) eqn:Hc.
    + exists (contact_effects X G name_age a). split; [|done].
      rewrite (respond_contact_exit _ _ _ _ _ _ Ha Hc).
      unfold contact_exit_run, contact_effects, push_effects.
      destruct (hook_outcome X G name_age (a_contact a)) as [e|].
      * left. eexists. rewrite analyzed_split. reflexivity.
      * destruct (pushbullet G) as [pb|]; cbv zeta.
        -- destruct (push_note X pb _ _) as [e|].
           ++ left. eexists. rewrite emit_extend, extend_extend, analyzed_split. reflexivity.
           ++ right. exists JNull, None, true. split; [|done].
              rewrite emit_extend, extend_extend, analyzed_split. reflexivity.
        -- left. eexists. rewrite analyzed_split. reflexivity.
    + destruct (selected_tactics X messages a w) as [e|c] eqn:Hs.
      * exists [Invoke (commander_chain (a_future_step a)) (analyzer_args (a_summary a) messages);
                Print (AnalyzerSays a)].
        split; [|split; [by repeat (apply Forall_cons; split)|simpl; lia]].
        left. exists e. rewrite (respond_commander_fails _ _ _ _ _ _ _ Ha Hc Hs).
        rewrite emit_extend, analyzed_split. reflexivity.
      * rewrite (respond_no_contact _ _ _ _ _ _ _ Ha Hc Hs).
        destruct (reply_shape X G name_age messages a (c_tags c) (guidance X w (c_tags c)) w)
          as (evs & H1 & H2 & H3 & H4).
        exists evs. split; [exact H1|]. split; [exact H2|]. split; [lia|exact H4].
Qed.

Lemma quiet_no_store e : quiet e = true -> touches_store e = false.
Proof. by destruct e. Qed.

Lemma quiet_no_notification e : quiet e = true -> is_notification e = false.
Proof. by destruct e. Qed.

Lemma contact_effects_no_store X G name_age a :
  Forall (fun e => touches_store e = false) (contact_effects X G name_age a).
Proof.
  unfold contact_effects, push_effects, hook_effects.
  destruct (hook_outcome X G name_age (a_contact a)), (pushbullet G),
    (notifications_hook G) as [h|]; try destruct (truthy h); repeat constructor.
Qed.

Lemma filter_notification_quiet l :
  Forall (fun e => quiet e = true) l ->
  filter (fun e => is_notification e = true) l = [].
Proof.
  induction 1 as [|e l He _ IH]; [done|].
  rewrite filter_cons, IH. destruct (decide _) as [Hd|_]; [|done].
  apply quiet_no_notification in He. congruence.
Qed.

(** ** The store is read first and written last *)

(** X1. Every cycle, whatever its path and outcome, reads the contact's
    record exactly once, as its first effect, and invokes the Analyzer on the
    stored summary and the incoming messages next.  It calls [upsert_record]
    at most once, as its last effect and for its own contact; it does so if
    and only if it returns normally, and the call sets the not-to-rise flag
    exactly when it carries no summary. *)
Theorem store_read_first_written_last X G name_age messages w :
  exists evs,
    Forall (fun e => touches_store e = false) evs /\
    let effects :=
      evs ++ [Invoke analyzer_chain (analyzer_args (stored_summary w name_age) messages);
              GetRecord name_age] in
    (exists e, respond_to_girl X G name_age messages w = (inl e, extend effects w)) \/
    (exists r s b,
       respond_to_girl X G name_age messages w =
         (inr r, upserted name_age s b (extend effects w)) /\
       log (upserted name_age s b (extend effects w)) =
         UpsertRecord name_age s b :: effects ++ log w /\
       (b = true <-> s = None)).
Proof.
  destruct (respond_shape X G name_age messages w) as (evs & Hshape & Hm).
  exists evs. split.
  - destruct (first_analysis X name_age messages w) as [e|a]; [by subst|].
    destruct (truthy (a_contact a)).
    + subst. apply contact_effects_no_store.
    + destruct Hm as [Hq _]. eapply Forall_impl; [exact Hq|]. apply quiet_no_store.
  - cbv zeta. destruct Hshape as [H|(r & s & b & H & Hb)]; [by left|].
    right. exists r, s, b. split; [exact H|]. split; [reflexivity|exact Hb].
Qed.

(** ** Who is notified, and when *)

(** X2. A cycle calls the notification services only on the contact-exit
    path.  There the webhook is called exactly when [notifications_hook] is
    set to a non-empty string, once, with the contact's key and the contact
    string, and before the push note; the push note is called exactly when
    the webhook call did not raise and the name [pushbullet] is bound.  On
    every other path, failures included, neither is ever called. *)
Theorem notifications_only_on_contact_exit X G name_age messages w :
  exists evs,
    log (snd (respond_to_girl X G name_age messages w)) = evs ++ log w /\
    filter (fun e => is_notification e = true) evs =
    match first_analysis X name_age messages w with
    | inl _ => []
    | inr a =>
        if truthy (a_contact a) then
          match hook_outcome X G name_age (a_contact a) with
          | Some _ => []
          | None =>
              match pushbullet G with
              | Some pb => [PushNote pb ("I planned date with " +:+ name_age) (a_contact a)]
              | None => []
              end
          end ++
          match notifications_hook G with
          | Some hook =>
              if truthy hook
              then [RequestsGet hook [("name_age", name_age); ("contact", a_contact a)]]
              else []
          | None => []
          end
        else []
    end.
Proof.
  destruct (respond_shape X G name_age messages w) as (evs & Hshape & Hm).
  assert (filter (fun e => is_notification e = true) (evs ++ opening name_age messages w) =
          match first_analysis X name_age messages w with
          | inl _ => []
          | inr a =>
              if truthy (a_contact a) then
                push_effects X G name_age a ++ hook_effects G name_age (a_contact a)
              else []
          end) as Hf.
  { rewrite filter_app. replace (filter _ (opening name_age messages w)) with (@nil event)
      by reflexivity. rewrite app_nil_r.
    destruct (first_analysis X name_age messages w) as [e|a]; [by subst|].
    destruct (truthy (a_contact a)).
    - subst. unfold contact_effects, push_effects, hook_effects.
      destruct (hook_outcome X G name_age (a_contact a)), (pushbullet G),
        (notifications_hook G) as [h|]; try destruct (truthy h); reflexivity.
    - destruct Hm as [Hq _]. by apply filter_notification_quiet. }
  destruct Hshape as [[e ->]|(r & s & b & -> & _)].
  - exists (evs ++ opening name_age messages w). split; [reflexivity|exact Hf].
  - exists (UpsertRecord name_age s b :: evs ++ opening name_age messages w).
    split; [reflexivity|]. rewrite filter_cons.
    destruct (decide _) as [Hd|_]; [discriminate Hd|exact Hf].
Qed.

(** ** What a cycle costs *)

(** X3. A cycle makes at least one and at most six model invocations (the
    Analyzer, the Commander, up to three Writer attempts, the Analyzer
    again) and sleeps at most 180 in total; on the contact-exit path and
    when the first analysis fails it makes exactly one invocation and never
    sleeps. *)
Theorem cycle_cost_bounded X G name_age messages w :
  exists evs,
    log (snd (respond_to_girl X G name_age messages w)) = evs ++ log w /\
    1 <= llm_calls evs <= 6 /\
    slept evs <= 180 /\
    match first_analysis X name_age messages w with
    | inl _ => llm_calls evs = 1 /\ slept evs = 0
    | inr a =>
        if truthy (a_contact a) then llm_calls evs = 1 /\ slept evs = 0
        else 2 <= llm_calls evs
    end.
Proof.
  destruct (respond_shape X G name_age messages w) as (evs & Hshape & Hm).
  assert (llm_calls (evs ++ opening name_age messages w) = llm_calls evs + 1 /\
          slept (evs ++ opening name_age messages w) = slept evs) as [Hl Hs].
  { rewrite llm_calls_app, slept_app. simpl. lia. }
  assert (match first_analysis X name_age messages w with
          | inl _ => llm_calls evs = 0 /\ slept evs = 0
          | inr a =>
              if truthy (a_contact a) then llm_calls evs = 0 /\ slept evs = 0
              else 1 <= llm_calls evs <= 5 /\ slept evs <= 180
          end) as Hc.
  { destruct (first_analysis X name_age messages w) as [e|a]; [by subst|].
    destruct (truthy (a_contact a)); [|by destruct Hm].
    subst. unfold contact_effects, push_effects, hook_effects.
    destruct (hook_outcome X G name_age (a_contact a)), (pushbullet G),
      (notifications_hook G) as [h|]; try destruct (truthy h); done. }
  destruct Hshape as [[e ->]|(r & s & b & -> & _)].
  - exists (evs ++ opening name_age messages w). split; [reflexivity|].
    rewrite Hl, Hs. destruct (first_analysis X name_age messages w) as [?|a];
      [lia|destruct (truthy (a_contact a)); lia].
  - exists (UpsertRecord name_age s b :: evs ++ opening name_age messages w).
    split; [reflexivity|]. cbn [llm_calls slept]. rewrite Hl, Hs.
    destruct (first_analysis X name_age messages w) as [?|a];
      [lia|destruct (truthy (a_contact a)); lia].
Qed.

(** ** More on the retried call *)





Lemma attempt_structured X cls m p args n :
  exists e, attempt X (create_structured_output_runnable cls m p) args n = inl e /\
            (e = TypeError \/
             run_chain X (create_structured_output_runnable cls m p) n args = inl e).
Proof.
  unfold attempt, run_chain. destruct cls.
  - destruct (analyzer_llm X n args); simpl; eauto.
  - destruct (commander_llm X _ n args); simpl; eauto.
  - destruct (commander_llm X _ n args); simpl; eauto.
Qed.

(** X5. [invoke_chain] cannot succeed on a structured-output chain such as
    the Analyzer's or the Commander's: such a chain returns an object, on
    which [json.loads] raises [TypeError], so every attempt fails and the
    call ends in [RetryError] after exactly three invocations, even when the
    model answered each time. *)
Theorem invoke_chain_rejects_structured_chains X cls m p args name w :
  let chain := create_structured_output_runnable cls m p in
  exists last evs,
    invoke_chain X chain args name w = (inl (RetryError last), extend evs w) /\
    llm_calls evs = 3 /\
    (last = TypeError \/ run_chain X chain (llm_calls (log w) + 2) args = inl last).
Proof.
  intros chain.
  destruct (attempt_structured X cls m p args (llm_calls (log w))) as (e1 & H1 & _).
  destruct (attempt_structured X cls m p args (S (llm_calls (log w)))) as (e2 & H2 & _).
  destruct (attempt_structured X cls m p args (S (S (llm_calls (log w))))) as (e3 & H3 & Hl).
  exists e3. eexists. split; [by apply (invoke_chain_exhausted _ _ _ _ _ e1 e2 e3)|].
  split; [reflexivity|].
  by replace (llm_calls (log w) + 2) with (S (S (llm_calls (log w)))) by lia.
Qed.




(** ** Failures after the Writer has answered *)



(** X8. When the Writer has answered and the summary refresh is due, a
    failure of the second Analyzer invocation fails the whole cycle with the
    model's exception: the generated messages are not returned and nothing is
    persisted. *)
Theorem failed_refresh_loses_the_reply X G name_age messages w a c v w3 msgs e :
  first_analysis X name_age messages w = inr a ->
  truthy (a_contact a) = false ->
  selected_tactics X messages a w = inr c ->
  invoke_chain X writer_chain (writer_args G (guidance X w (c_tags c)) messages)
               (Some "Writer") (before_writer name_age messages a (c_tags c) w) = (inr v, w3) ->
  getitem v "message" = inr msgs ->
  refresh_needed (c_tags c) = true ->
  analyzer_llm X (llm_calls (log w3)) (refresh_args X a msgs) = inl e ->
  respond_to_girl X G name_age messages w =
    (inl e, emit (Invoke analyzer_chain (refresh_args X a msgs)) w3) /\
  store (snd (respond_to_girl X G name_age messages w)) = store w.
Proof.
  intros Ha Hc Hs Hw Hg Hr He.
  assert (store w3 = store w) as Hst.
  { rewrite invoke_chain_run in Hw. by injection Hw as _ <-. }
  assert (respond_to_girl X G name_age messages w =
          (inl e, emit (Invoke analyzer_chain (refresh_args X a msgs)) w3)) as Hrun.
  { rewrite (respond_no_contact _ _ _ _ _ _ _ Ha Hc Hs). unfold reply_stage, bind at 1.
    rewrite Hw. unfold bind at 1, lift at 1. rewrite Hg. unfold bind at 1. rewrite Hr.
    unfold bind at 1, invoke at 1. unfold refresh_args, analyzer_args in He.
    cbn [run_chain analyzer_chain]. by rewrite He. }
  split; [exact Hrun|]. rewrite Hrun. exact Hst.
Qed.

Lemma failed_refresh_loses_the_reply_witness :
  let w3 := snd (invoke_chain refresh_down writer_chain
                   (writer_args globals_full "Tell a short story." "hi there") (Some "Writer")
                   (before_writer "Jane 27" "hi there" step1_analysis ["Storytelling"] world0)) in
  respond_to_girl refresh_down globals_full "Jane 27" "hi there" world0 =
    (inl (ChainError "timeout"),
     emit (Invoke analyzer_chain
             (refresh_args refresh_down step1_analysis (JList [JStr "Hey, how was your day?"])))
          w3).
Proof.
  intros w3.
  apply (proj1 (failed_refresh_loses_the_reply refresh_down globals_full "Jane 27" "hi there"
                  world0 step1_analysis (CommanderStep1Output "tell a story" ["Storytelling"])
                  writer_json w3 (JList [JStr "Hey, how was your day?"]) (ChainError "timeout")
                  eq_refl eq_refl eq_refl eq_refl eq_refl eq_refl eq_refl)).
Defined.

(** ** The rule lookups *)

Lemma rule_queries_query_rules tags : rule_queries (rev (map QueryRule tags)) = length tags.
Proof.
  induction tags as [|t ts IH]; [done|].
  simpl. rewrite rule_queries_app, IH. simpl. lia.
Qed.

Lemma rule_queries_reply evs : Forall reply_effect evs -> rule_queries evs = 0.
Proof.
  induction 1 as [|e evs He _ IH]; [done|].
  by destruct He as [[? ->]|[[? ->]|[[? ->]|[? ->]]]].
Qed.

Lemma reply_effect_not_query e : reply_effect e -> is_query e = false.
Proof. by intros [[? ->]|[[? ->]|[[? ->]|[? ->]]]]. Qed.

Lemma rule_queries_before_writer name_age messages a tags w :
  rule_queries (log (before_writer name_age messages a tags w)) =
  rule_queries (log w) + length tags.
Proof.
  rewrite before_writer_extend, log_extend, !rule_queries_app, rule_queries_query_rules.
  simpl. lia.
Qed.

(** The effects of the reply stage, the write apart, and the Writer's
    invocation among them. *)
Lemma reply_stage_effects X G name_age messages a tags rules w :
  exists evs,
    (log (snd (reply_stage X G name_age messages a tags rules w)) = evs ++ log w \/
     exists s, log (snd (reply_stage X G name_age messages a tags rules w)) =
               UpsertRecord name_age (Some s) false :: evs ++ log w) /\
    Forall reply_effect evs /\
    Invoke writer_chain (writer_args G rules messages) ∈ evs.
Proof.
  apply reply_stage_paths.
  - intros last evs Hw. exists evs. split; [by left|].
    split; [by eapply writer_effects_reply|apply Hw].
  - intros v e evs Hw _ _. exists evs. split; [by left|].
    split; [by eapply writer_effects_reply|apply Hw].
  - intros v msgs e evs Hw _ _ _ _.
    exists (Invoke analyzer_chain (refresh_args X a msgs) :: evs). split; [by left|]. split.
    + apply Forall_cons; split; [unfold reply_effect; eauto|by eapply writer_effects_reply].
    + apply list_elem_of_further, Hw.
  - intros v msgs a2 evs Hw _ _ _ _.
    exists (Print (AnalyzerSays a) :: Invoke analyzer_chain (refresh_args X a msgs) :: evs).
    split; [right; by eexists|]. split.
    + apply Forall_cons; split; [unfold reply_effect; eauto 6|].
      apply Forall_cons; split; [unfold reply_effect; eauto|by eapply writer_effects_reply].
    + do 2 apply list_elem_of_further. apply Hw.
  - intros v msgs evs Hw _ _ _. exists evs. split; [right; by eexists|].
    split; [by eapply writer_effects_reply|apply Hw].
Qed.

(** X9. A cycle whose Commander answered looks up each selected tag
    exactly once, duplicates included, in the order of the tags, after the
    Commander and before the first Writer attempt; nothing later in the cycle
    queries the rule base again.  This holds whatever the outcome of the
    Writer and of the refresh. *)
Theorem rules_queried_once_per_tag_in_order X G name_age messages w a c :
  first_analysis X name_age messages w = inr a ->
  truthy (a_contact a) = false ->
  selected_tactics X messages a w = inr c ->
  let run := respond_to_girl X G name_age messages w in
  (exists evs,
     log (snd run) =
       evs ++ rev (map QueryRule (c_tags c))
           ++ Invoke (commander_chain (a_future_step a)) (analyzer_args (a_summary a) messages)
           :: log (analyzed name_age messages a w) /\
     Forall (fun e => is_query e = false) evs /\
     Invoke writer_chain (writer_args G (guidance X w (c_tags c)) messages) ∈ evs) /\
  rule_queries (log (snd run)) = rule_queries (log w) + length (c_tags c).
Proof.
  intros Ha Hc Hs run. unfold run. rewrite (respond_no_contact _ _ _ _ _ _ _ Ha Hc Hs).
  destruct (reply_stage_effects X G name_age messages a (c_tags c) (guidance X w (c_tags c))
              (before_writer name_age messages a (c_tags c) w)) as (evs & Hlog & Hevs & Hin).
  assert (Forall (fun e => is_query e = false) evs) as Hq
    by (eapply Forall_impl; [exact Hevs|apply reply_effect_not_query]).
  pose proof (rule_queries_before_writer name_age messages a (c_tags c) w) as Hbw.
  pose proof (rule_queries_reply evs Hevs) as H0.
  destruct Hlog as [Hlog|[s Hlog]]; rewrite Hlog.
  - split.
    + exists evs. split; [|by split]. unfold before_writer. rewrite log_extend. reflexivity.
    + rewrite rule_queries_app, Hbw, H0. lia.
  - split.
    + exists (UpsertRecord name_age (Some s) false :: evs). split; [|split].
      * unfold before_writer. rewrite log_extend. reflexivity.
      * by apply Forall_cons.
      * by apply list_elem_of_further.
    + cbn [rule_queries]. rewrite rule_queries_app, Hbw, H0. lia.
Qed.

Lemma rules_queried_once_per_tag_in_order_witness :
  rule_queries (log (snd (respond_to_girl (smooth ["Bond"; "Storytelling"; "Bond"]) globals_full
                            "Jane 27" "hi there" world0))) =
  rule_queries (log world0) + 3.
Proof.
  apply (proj2 (rules_queried_once_per_tag_in_order (smooth ["Bond"; "Storytelling"; "Bond"])
                  globals_full "Jane 27" "hi there" world0 step1_analysis
                  (CommanderStep1Output "build rapport" ["Bond"; "Storytelling"; "Bond"])
                  eq_refl eq_refl eq_refl)).
Defined.

Lemma append_assoc (s1 s2 s3 : string) : (s1 +:+ s2) +:+ s3 = s1 +:+ s2 +:+ s3.
Proof.
  induction s1 as [|ch s1 IH]; [done|].
  change (String ch ((s1 +:+ s2) +:+ s3) = String ch (s1 +:+ s2 +:+ s3)).
  by rewrite IH.
Qed.

Lemma join_app sep l1 l2 :
  l1 <> [] -> l2 <> [] ->
  join sep (l1 ++ l2) = join sep l1 +:+ sep +:+ join sep l2.
Proof.
  intros H1 H2. induction l1 as [|x l1 IH]; [done|].
  destruct l1 as [|y l1].
  - simpl. by destruct l2.
  - change (join sep ((x :: y :: l1) ++ l2)) with (x +:+ sep +:+ join sep ((y :: l1) ++ l2)).
    rewrite IH by done.
    change (join sep (x :: y :: l1)) with (x +:+ sep +:+ join sep (y :: l1)).
    by rewrite !append_assoc.
Qed.

Lemma resolved_from_app X k tags1 tags2 :
  resolved_from X k (tags1 ++ tags2) =
  resolved_from X k tags1 ++ resolved_from X (k + length tags1) tags2.
Proof.
  revert k. induction tags1 as [|t ts IH]; intros k; simpl.
  - by rewrite Nat.add_0_r.
  - rewrite IH. by rewrite Nat.add_succ_r.
Qed.

Lemma resolved_from_nil_inv X k tags : resolved_from X k tags = [] -> tags = [].
Proof. by destruct tags. Qed.

(** X10. The guidance block is built tag by tag: the block of a
    concatenated tag list is the block of the first part, the separator, and
    the block of the second part resolved in the state the first lookups left
    behind; between two non-empty parts there is exactly one separator and
    none at either end. *)
Theorem guidance_of_concatenated_tags X w tags1 tags2 :
  tags1 <> [] -> tags2 <> [] ->
  guidance X w (tags1 ++ tags2) =
  guidance X w tags1 +:+ rules_separator
    +:+ guidance X (snd (mapM (query_rule X) tags1 w)) tags2.
Proof.
  intros H1 H2. rewrite mapM_query_rule. cbn [snd]. unfold guidance.
  rewrite log_extend, rule_queries_app, rule_queries_query_rules, resolved_from_app.
  rewrite (Nat.add_comm (length tags1)).
  apply join_app; intros H%resolved_from_nil_inv; done.
Qed.

Lemma guidance_of_concatenated_tags_witness :
  guidance (smooth []) fresh_world (["Bond"] ++ ["Storytelling"]) =
  guidance (smooth []) fresh_world ["Bond"] +:+ rules_separator
    +:+ guidance (smooth []) (snd (mapM (query_rule (smooth [])) ["Bond"] fresh_world))
                 ["Storytelling"].
Proof.
  apply (guidance_of_concatenated_tags (smooth []) fresh_world ["Bond"] ["Storytelling"]);
    discriminate.
Defined.

(** ** The contact-exit path and the configuration *)

(** X11. On the contact-exit path the outcome and every effect depend on
    the Analyzer's answer, the configuration and the outcome of the two
    notification calls alone: two runs that differ in what the Commander, the
    Writer, the rule base and the parser would answer are equal, result and
    world. *)
Theorem contact_exit_ignores_commander_and_writer X X' G name_age messages w a :
  first_analysis X name_age messages w = inr a ->
  first_analysis X' name_age messages w = inr a ->
  truthy (a_contact a) = true ->
  hook_outcome X G name_age (a_contact a) = hook_outcome X' G name_age (a_contact a) ->
  (forall pb, pushbullet G = Some pb ->
     push_note X pb ("I planned date with " +:+ name_age) (a_contact a) =
     push_note X' pb ("I planned date with " +:+ name_age) (a_contact a)) ->
  respond_to_girl X G name_age messages w = respond_to_girl X' G name_age messages w.
Proof.
  intros Ha Ha' Hc Hhook Hpush.
  rewrite (respond_contact_exit _ _ _ _ _ _ Ha Hc), (respond_contact_exit _ _ _ _ _ _ Ha' Hc).
  unfold contact_exit_run. rewrite <- Hhook.
  destruct (hook_outcome X G name_age (a_contact a)); [done|].
  destruct (pushbullet G) as [pb|]; [|done]. cbv zeta. by rewrite (Hpush pb eq_refl).
Qed.

Lemma contact_exit_ignores_commander_and_writer_witness :
  respond_to_girl contact_given globals_full "Jane 27" "my insta is jane_doe" world0 =
  respond_to_girl contact_given_rest_down globals_full "Jane 27" "my insta is jane_doe" world0.
Proof.
  apply (contact_exit_ignores_commander_and_writer contact_given contact_given_rest_down
           globals_full "Jane 27" "my insta is jane_doe" world0 contact_analysis);
    reflexivity.
Defined.

Lemma truthy_nonempty s : truthy s = true <-> s <> "".
Proof. by destruct s. Qed.

Lemma and_then_inr {A B} (r : Result A) (k : A -> Result B) b :
  and_then r k = inr b -> exists a, r = inr a /\ k a = inr b.
Proof. destruct r as [e|a]; [done|]. intros Hk. by exists a. Qed.

Lemma check_inr o u : check o = inr u -> o = None.
Proof. by destruct o. Qed.

Lemma environ_get_inr env name v : environ_get env name = inr v -> env !! name = Some v.
Proof. unfold environ_get. destruct (env !! name); [by intros [= ->]|done]. Qed.

(** What a module that loaded tells of the environment and the host. *)
Lemma load_module_fields H env G :
  load_module H env = inr G ->
  import_modules H env = None /\
  env !! "LANGUAGE" = Some (language G) /\
  env !! "CITY" = Some (city G) /\
  notifications_hook G = env !! "NOTIFICATIONS_HOOK" /\
  pushbullet G = match env !! "PUSHBULLET_API_KEY" with
                 | Some k => if truthy k then Some (PushbulletClient k) else None
                 | None => None
                 end /\
  (forall k, pushbullet G = Some (PushbulletClient k) -> Pushbullet_init H k = None).
Proof.
  intros Hload. unfold load_module in Hload.
  apply and_then_inr in Hload as (? & Himp%check_inr & Hload).
  apply and_then_inr in Hload as (lang & Hl%environ_get_inr & Hload).
  apply and_then_inr in Hload as (cty & Hc%environ_get_inr & Hload).
  cbv zeta in Hload.
  do 4 apply and_then_inr in Hload as (? & _ & Hload).
  apply and_then_inr in Hload as (pb & Hpb & Hload).
  do 5 apply and_then_inr in Hload as (? & _ & Hload).
  injection Hload as <-. cbn.
  split; [done|]. split; [done|]. split; [done|]. split; [done|].
  destruct (env !! "PUSHBULLET_API_KEY") as [k|]; [destruct (truthy k)|].
  - apply and_then_inr in Hpb as (? & Hinit%check_inr & [= <-]).
    split; [done|]. by intros k' [= <-].
  - injection Hpb as <-. by split.
  - injection Hpb as <-. by split.
Qed.

(** X12. For a process whose module loaded from the environment [env], the
    contact-exit path completes, returning [None] with the contact marked as
    its last effect, if and only if PUSHBULLET_API_KEY is set to a non-empty
    string and neither the webhook call, if one is configured, nor the push
    note raises.  With the variable unset, or set to the empty string, the
    path raises what the webhook raised or else [NameError] at the push note.
    Whenever the path fails the store is left as it was. *)
Theorem contact_exit_completes_iff_push_key_set H env X G name_age messages w a :
  load_module H env = inr G ->
  first_analysis X name_age messages w = inr a ->
  truthy (a_contact a) = true ->
  let run := respond_to_girl X G name_age messages w in
  let title := "I planned date with " +:+ name_age in
  (fst run = inr JNull <->
     hook_outcome X G name_age (a_contact a) = None /\
     exists k, env !! "PUSHBULLET_API_KEY" = Some k /\ k <> "" /\
               push_note X (PushbulletClient k) title (a_contact a) = None) /\
  (env !! "PUSHBULLET_API_KEY" = None \/ env !! "PUSHBULLET_API_KEY" = Some "" ->
     fst run = match hook_outcome X G name_age (a_contact a) with
               | Some e => inl e
               | None => inl (NameError "pushbullet")
               end) /\
  (forall e, fst run = inl e -> store (snd run) = store w) /\
  (fst run = inr JNull ->
     exists earlier, log (snd run) = UpsertRecord name_age None true :: earlier).
Proof.
  intros Hload Ha Hc run title. unfold run.
  destruct (load_module_fields _ _ _ Hload) as (_ & _ & _ & _ & Hpb & _).
  rewrite (respond_contact_exit _ _ _ _ _ _ Ha Hc). unfold contact_exit_run. rewrite Hpb.
  fold title.
  destruct (hook_outcome X G name_age (a_contact a)) as [eh|]; cbn [fst snd].
  { split; [|split; [|split]]; try done.
    split; [done|]. by intros [? _]. }
  destruct (env !! "PUSHBULLET_API_KEY") as [k|]; [destruct (truthy k) eqn:Hk|]; cbn [fst snd].
  - apply truthy_nonempty in Hk. cbv zeta.
    destruct (push_note X (PushbulletClient k) title (a_contact a)) as [ep|] eqn:Hp;
      cbn [fst snd].
    + split; [|split; [|split]]; try done.
      * split; [done|]. intros (_ & k' & [= <-] & _ & Hp'). congruence.
      * intros [?|[= ->]]; done.
    + split; [|split; [|split]]; try done.
      * split; [intros _|done]. split; [done|]. by exists k.
      * intros [?|[= ->]]; done.
      * intros _. eexists. reflexivity.
  - assert (k = "") as -> by (by destruct k).
    split; [|split; [|split]]; try done.
    split; [done|]. by intros (_ & k & [= <-] & Hne & _).
  - split; [|split; [|split]]; try done.
    split; [done|]. by intros (_ & k & ? & _).
Qed.

Lemma contact_exit_completes_iff_push_key_set_witness :
  fst (respond_to_girl contact_given globals_empty_key "Jane 27" "my insta is jane_doe" world0)
  = match hook_outcome contact_given globals_empty_key "Jane 27"
            (a_contact contact_analysis) with
    | Some e => inl e
    | None => inl (NameError "pushbullet")
    end.
Proof.
  apply (proj1 (proj2 (contact_exit_completes_iff_push_key_set ready_host environ_empty_key
                         contact_given globals_empty_key "Jane 27" "my insta is jane_doe" world0
                         contact_analysis eq_refl eq_refl eq_refl))).
  by right.
Defined.

(** X13. The Writer is asked with the incoming messages as they came and
    with the LANGUAGE and CITY of the environment the module was loaded
    from, next to the guidance block; the stored summary and the analysis are
    not part of its prompt. *)
Theorem writer_gets_configured_language_and_city H env X G name_age messages w a c :
  load_module H env = inr G ->
  first_analysis X name_age messages w = inr a ->
  truthy (a_contact a) = false ->
  selected_tactics X messages a w = inr c ->
  exists lang cty,
    env !! "LANGUAGE" = Some lang /\ env !! "CITY" = Some cty /\
    Invoke writer_chain [("rules", guidance X w (c_tags c)); ("messages", messages);
                         ("language", lang); ("city", cty)]
      ∈ log (snd (respond_to_girl X G name_age messages w)).
Proof.
  intros Hload Ha Hc Hs.
  destruct (load_module_fields _ _ _ Hload) as (_ & Hl & Hcty & _).
  exists (language G), (city G). split; [done|]. split; [done|].
  rewrite (respond_no_contact _ _ _ _ _ _ _ Ha Hc Hs).
  apply reply_stage_invokes_writer.
Qed.

Lemma writer_gets_configured_language_and_city_witness :
  exists lang cty,
    environ_full !! "LANGUAGE" = Some lang /\ environ_full !! "CITY" = Some cty /\
    Invoke writer_chain [("rules", guidance (smooth ["Bond"]) fresh_world ["Bond"]);
                         ("messages", "hi there"); ("language", lang); ("city", cty)]
      ∈ log (snd (respond_to_girl (smooth ["Bond"]) globals_full "Jane 27" "hi there"
                    fresh_world)).
Proof.
  apply (writer_gets_configured_language_and_city ready_host environ_full (smooth ["Bond"])
           globals_full "Jane 27" "hi there" fresh_world step1_analysis
           (CommanderStep1Output "build rapport" ["Bond"]) eq_refl eq_refl eq_refl eq_refl).
Defined.

(** X14. Start-up needs LANGUAGE and CITY: once the imports have run, a
    missing LANGUAGE raises [KeyError] for it and, with LANGUAGE set, a
    missing CITY raises [KeyError] for it, whatever else is configured or
    reachable; a module that loaded had both.  The push client is built only
    for a non-empty PUSHBULLET_API_KEY: with the key unset or empty start-up
    does not depend on the push service at all, and with it set a module
    that loaded has built the client. *)
Theorem load_module_needs_language_and_city H env :
  (import_modules H env = None -> env !! "LANGUAGE" = None ->
     load_module H env = inl (KeyError "LANGUAGE")) /\
  (import_modules H env = None -> is_Some (env !! "LANGUAGE") -> env !! "CITY" = None ->
     load_module H env = inl (KeyError "CITY")) /\
  (forall G, load_module H env = inr G ->
     env !! "LANGUAGE" = Some (language G) /\ env !! "CITY" = Some (city G) /\
     forall k, env !! "PUSHBULLET_API_KEY" = Some k -> k <> "" ->
               Pushbullet_init H k = None /\ pushbullet G = Some (PushbulletClient k)) /\
  (env !! "PUSHBULLET_API_KEY" = None \/ env !! "PUSHBULLET_API_KEY" = Some "" ->
     forall push_service,
       load_module {| import_modules := import_modules H;
                      read_prompt := read_prompt H;
                      Pushbullet_init := push_service;
                      ChatOpenAI_init := ChatOpenAI_init H;
                      build_chain := build_chain H |} env
       = load_module H env).
Proof.
  split; [|split; [|split]].
  - intros Hi Hl. unfold load_module, and_then, check, environ_get. by rewrite Hi, Hl.
  - intros Hi [l Hl] Hc. unfold load_module, and_then, check, environ_get.
    by rewrite Hi, Hl, Hc.
  - intros G Hload.
    destruct (load_module_fields _ _ _ Hload) as (_ & Hl & Hc & _ & Hpb & Hinit).
    split; [done|]. split; [done|]. intros k Hk Hne. rewrite Hk in Hpb.
    apply truthy_nonempty in Hne. rewrite Hne in Hpb. split; [by apply Hinit|exact Hpb].
  - intros Hkey push_service. unfold load_module. cbn [import_modules read_prompt
      Pushbullet_init ChatOpenAI_init build_chain].
    by destruct Hkey as [-> | ->].
Qed.

Lemma load_module_needs_language_and_city_witness :
  load_module push_rejecting_host (<["CITY" := "Warsaw"]> ∅) = inl (KeyError "LANGUAGE").
Proof.
  apply (proj1 (load_module_needs_language_and_city push_rejecting_host
                  (<["CITY" := "Warsaw"]> ∅))); reflexivity.
Defined.

Example load_rejected_push_key :
  load_module push_rejecting_host environ_full = inl (PushbulletError "InvalidKeyError") /\
  load_module push_rejecting_host environ_no_push = inr globals_no_push.
Proof. split; reflexivity. Qed.

Example contact_exit_webhook_raises :
  respond_to_girl webhook_down globals_full "Jane 27" "my insta is jane_doe" world0 =
    (inl (RequestException "MissingSchema"),
     extend [RequestsGet "https://hooks.example/date"
               [("name_age", "Jane 27"); ("contact", "Instagram jane_doe")]]
            (analyzed "Jane 27" "my insta is jane_doe" contact_analysis world0)).
Proof. reflexivity. Qed.
